(** * Helium engine: type registration and reference-count proxy store

    A shallow embedding of [Engine/Type.cpp] (namespace [Lunar]):

    - [TypeRefCountSupport]: the global pool of reference-count proxies
      ([Allocate], [Release], [Shutdown], [GetActiveProxyCount],
      [GetFirstActiveProxy]);
    - [Type_] (the class [Type]): the name-keyed registry of type
      descriptors ([IsSubtypeOf], [SetTypePackage], [Create], [Unregister],
      [Find], [Shutdown]).

    Global (static) variables of the C++ code become fields of an explicit
    state record that every operation threads through; a call that trips a
    [HELIUM_ASSERT] or [HELIUM_VERIFY] ends in [Trap]. *)

From stdpp Require Import gmap strings list fin_maps.
From Stdlib Require Import NArith ZArith Lia.

Set Default Proof Using "Type".

(** ** Outcomes and the state monad of the embedding *)

(** What a call can do: return a value, stop in a failed assertion, run into
    undefined behaviour (a pointer that designates no live object is
    dereferenced), or exhaust the fuel of a loop of the model. *)
Inductive outcome (A : Type) : Type :=
| Ret (a : A)
| Trap
| Undefined
| OutOfFuel.
Arguments Ret {A} a.
Arguments Trap {A}.
Arguments Undefined {A}.
Arguments OutOfFuel {A}.

Definition M (S A : Type) : Type := S → outcome (A * S).

Definition ret {S A} (a : A) : M S A := λ s, Ret (a, s).

Definition bind {S A B} (c : M S A) (k : A → M S B) : M S B :=
  λ s, match c s with
       | Ret (a, s') => k a s'
       | Trap => Trap
       | Undefined => Undefined
       | OutOfFuel => OutOfFuel
       end.

Definition gets {S A} (f : S → A) : M S A := λ s, Ret (f s, s).
Definition modify {S} (f : S → S) : M S unit := λ s, Ret (tt, f s).
Definition trap {S A} : M S A := λ _, Trap.
Definition undefined {S A} : M S A := λ _, Undefined.

Notation "x <~ c ;; k" := (bind c (λ x, k))
  (at level 100, c at next level, right associativity,
   format "'[v' x  <~  c  ;;  '/' k ']'").
Notation "c ;;; k" := (bind c (λ _, k))
  (at level 100, right associativity,
   format "'[v' c  ;;;  '/' k ']'").

(** Modelled from the spec: the macros [HELIUM_ASSERT] and [HELIUM_VERIFY]
    (Platform/Assert.h) are not part of the sources at hand.  The spec calls
    their failure a fatal, assertion-guarded invariant violation that
    terminates or traps; the embedding is that of a build with assertions
    enabled.  [HELIUM_VERIFY] differs from [HELIUM_ASSERT] only in that its
    argument is an expression with an effect, which is run first. *)
Definition HELIUM_ASSERT {S} (cond : bool) : M S unit :=
  if cond then ret tt else trap.

(** Modelled from the spec: [HELIUM_VERIFY( expr )] runs [expr] and asserts
    its result. *)
Definition HELIUM_VERIFY {S} (c : M S bool) : M S unit :=
  ok <~ c ;; HELIUM_ASSERT ok.

(** A nullable C++ pointer is an [option]; [non_null p] is the test [p]
    of the C++ code, [negb (non_null p)] the test [!p]. *)
Definition non_null {A} (p : option A) : bool :=
  match p with Some _ => true | None => false end.

(** The value a call returns, without the state it leaves. *)
Definition result {S A} (r : outcome (A * S)) : outcome A :=
  match r with
  | Ret (a, _) => Ret a
  | Trap => Trap
  | Undefined => Undefined
  | OutOfFuel => OutOfFuel
  end.

Ltac unfold_monad :=
  unfold HELIUM_VERIFY, HELIUM_ASSERT, bind, ret, gets, modify, trap, undefined in *.

(** ** The reference-count proxy store *)

Module TypeRefCountSupport.

(** The address of a [RefCountProxy< Type >] cell.  Addresses stand for
    object identities: the allocator below never hands out an address
    twice, also not after the memory was freed. *)
Definition cell : Type := N.

(** Modelled from the spec: [ObjectPool] (Foundation/Container/ObjectPool.h)
    is not part of the sources at hand.  It is a pool of cells grown in
    blocks of a fixed number of cells; [Allocate] takes a cell from the
    pool, growing the pool by one block if it is exhausted, and [Release]
    returns a cell to the pool.  [poolBlocks] lists the base address of
    every block the pool has carved, [poolFree] the cells it can hand
    out. *)
Record ObjectPool : Type := mkObjectPool {
  poolBlockSize : N;
  poolBlocks : list N;
  poolFree : list cell
}.

(** Modelled from the spec: the cells of a block of [size] cells at
    [base]. *)
Definition block_cells (base size : N) : list cell :=
  (λ i, (base + N.of_nat i)%N) <$> seq 0 (N.to_nat size).

(** Modelled from the spec: every cell the pool owns, issued or free. *)
Definition pool_cells (pool : ObjectPool) : list cell :=
  b ← poolBlocks pool; block_cells b (poolBlockSize pool).

(** Modelled from the spec: [ObjectPool::Allocate()].  A free cell is
    reused; when there is none, a block is carved at the break of the
    underlying heap (the first address that has never been used, second
    argument and last component of the result) and its first cell is
    given. *)
Definition ObjectPool_Allocate (pool : ObjectPool) (brk : N)
  : option cell * ObjectPool * N :=
  match poolFree pool with
  | c :: rest =>
      (Some c, mkObjectPool (poolBlockSize pool) (poolBlocks pool) rest, brk)
  | [] =>
      match block_cells brk (poolBlockSize pool) with
      | c :: rest =>
          (Some c,
           mkObjectPool (poolBlockSize pool) (brk :: poolBlocks pool) rest,
           (brk + poolBlockSize pool)%N)
      | [] => (None, pool, brk)
      end
  end.

(** Modelled from the spec: [ObjectPool::Release( pObject )] returns the
    cell to the free cells, whatever it is. *)
Definition ObjectPool_Release (pool : ObjectPool) (c : cell) : ObjectPool :=
  mkObjectPool (poolBlockSize pool) (poolBlocks pool) (c :: poolFree pool).

(** Modelled from the spec: [ConcurrentHashSet] is not part of the sources
    at hand.  [Insert] adds an element and tells whether it was new. *)
Definition ConcurrentHashSet_Insert (s : gset cell) (c : cell) : bool * gset cell :=
  if decide (c ∈ s) then (false, s) else (true, {[c]} ∪ s).

(** Modelled from the spec: [ConcurrentHashSet::Remove] deletes an element
    and tells whether it was there. *)
Definition ConcurrentHashSet_Remove (s : gset cell) (c : cell) : bool * gset cell :=
  if decide (c ∈ s) then (true, s ∖ {[c]}) else (false, s).

(** [struct TypeRefCountSupport::StaticData]. *)
Record StaticData : Type := mkStaticData {
  proxyPool : ObjectPool;
  activeProxySet : gset cell
}.

Definition POOL_BLOCK_SIZE : N := 1024.

(** [StaticData::StaticData()]: [proxyPool( POOL_BLOCK_SIZE )]. *)
Definition StaticData_ctor : StaticData :=
  mkStaticData (mkObjectPool POOL_BLOCK_SIZE [] []) ∅.

(** The static [sm_pStaticData] and the heap break. *)
Record Store : Type := mkStore {
  sm_pStaticData : option StaticData;
  heapBreak : N
}.

Definition initial : Store := mkStore None 0.

Definition set_StaticData (p : option StaticData) : M Store unit :=
  modify (λ w, mkStore p (heapBreak w)).

Section Operations.
(** The compile-time switch [HELIUM_ENABLE_MEMORY_TRACKING]. *)
Variable HELIUM_ENABLE_MEMORY_TRACKING : bool.

Definition pool_Allocate (sd : StaticData) : M Store (option cell) :=
  λ w, let '(p, pool, brk) := ObjectPool_Allocate (proxyPool sd) (heapBreak w) in
       Ret (p, mkStore (Some (mkStaticData pool (activeProxySet sd))) brk).

Definition set_Insert (c : cell) : M Store bool :=
  λ w, match sm_pStaticData w with
       | Some sd =>
           let '(ok, s) := ConcurrentHashSet_Insert (activeProxySet sd) c in
           Ret (ok, mkStore (Some (mkStaticData (proxyPool sd) s)) (heapBreak w))
       | None => Undefined
       end.

Definition set_Remove (c : cell) : M Store bool :=
  λ w, match sm_pStaticData w with
       | Some sd =>
           let '(ok, s) := ConcurrentHashSet_Remove (activeProxySet sd) c in
           Ret (ok, mkStore (Some (mkStaticData (proxyPool sd) s)) (heapBreak w))
       | None => Undefined
       end.

Definition pool_Release (c : cell) : M Store unit :=
  λ w, match sm_pStaticData w with
       | Some sd =>
           Ret (tt, mkStore (Some (mkStaticData (ObjectPool_Release (proxyPool sd) c)
                                                (activeProxySet sd)))
                            (heapBreak w))
       | None => Undefined
       end.

(** [TypeRefCountSupport::Allocate()]. *)
Definition Allocate : M Store (option cell) :=
  pStaticData <~ gets sm_pStaticData ;;
  sd <~ match pStaticData with
        | Some sd => ret sd
        | None =>
            let sd := StaticData_ctor in
            HELIUM_ASSERT true ;;;
            set_StaticData (Some sd) ;;;
            ret sd
        end ;;
  pProxy <~ pool_Allocate sd ;;
  HELIUM_ASSERT (non_null pProxy) ;;;
  match pProxy with
  | Some c =>
      (if HELIUM_ENABLE_MEMORY_TRACKING
       then HELIUM_VERIFY (set_Insert c)
       else ret tt) ;;;
      ret pProxy
  | None => ret pProxy
  end.

(** [TypeRefCountSupport::Release( pProxy )]. *)
Definition Release (pProxy : option cell) : M Store unit :=
  HELIUM_ASSERT (non_null pProxy) ;;;
  pStaticData <~ gets sm_pStaticData ;;
  HELIUM_ASSERT (non_null pStaticData) ;;;
  match pProxy with
  | Some c =>
      (if HELIUM_ENABLE_MEMORY_TRACKING
       then HELIUM_VERIFY (set_Remove c)
       else ret tt) ;;;
      pool_Release c
  | None => undefined
  end.

(** [TypeRefCountSupport::Shutdown()]: [delete] on a null pointer does
    nothing, so the call never fails. *)
Definition Shutdown : M Store unit :=
  set_StaticData None.

(** [TypeRefCountSupport::GetActiveProxyCount()], compiled only with
    memory tracking.  The size of a set of live cells fits a [size_t]. *)
Definition GetActiveProxyCount : M Store N :=
  pStaticData <~ gets sm_pStaticData ;;
  HELIUM_ASSERT (non_null pStaticData) ;;;
  match pStaticData with
  | Some sd => ret (N.of_nat (size (activeProxySet sd)))
  | None => undefined
  end.

(** [TypeRefCountSupport::GetFirstActiveProxy( rAccessor )]: the result
    pairs the returned flag with the cell the accessor refers to. *)
Definition GetFirstActiveProxy : M Store (bool * option cell) :=
  pStaticData <~ gets sm_pStaticData ;;
  HELIUM_ASSERT (non_null pStaticData) ;;;
  match pStaticData with
  | Some sd =>
      match elements (activeProxySet sd) with
      | c :: _ => ret (true, Some c)
      | [] => ret (false, None)
      end
  | None => undefined
  end.
End Operations.

(** The live set of a store; there is none before the first [Allocate] and
    after [Shutdown]. *)
Definition active (w : Store) : gset cell :=
  match sm_pStaticData w with
  | Some sd => activeProxySet sd
  | None => ∅
  end.

(** Histories: the calls a client makes, and what they did.  [Issued c]
    records that [Allocate] returned [c], [Released c] that [c] was passed to
    [Release]; the oldest event comes first. *)
Inductive call : Type :=
| CallAllocate
| CallRelease (pProxy : option cell).

Inductive event : Type :=
| Issued (c : cell)
| Released (c : cell).

#[global] Instance event_eq_dec : EqDecision event.
Proof. solve_decision. Defined.

Definition issued_event (pProxy : option cell) : list event :=
  match pProxy with Some c => [Issued c] | None => [] end.
Definition released_event (pProxy : option cell) : list event :=
  match pProxy with Some c => [Released c] | None => [] end.

Fixpoint run (tracking : bool) (calls : list call) : M Store (list event) :=
  match calls with
  | [] => ret []
  | CallAllocate :: rest =>
      pProxy <~ Allocate tracking ;;
      evs <~ run tracking rest ;;
      ret (issued_event pProxy ++ evs)
  | CallRelease pProxy :: rest =>
      Release tracking pProxy ;;;
      evs <~ run tracking rest ;;
      ret (released_event pProxy ++ evs)
  end.

(** [c] was returned by [Allocate] and not passed to [Release] since. *)
Definition live_after (evs : list event) (c : cell) : Prop :=
  ∃ pre post, evs = pre ++ Issued c :: post ∧ Released c ∉ post.

Definition is_issued (e : event) : bool :=
  match e with Issued _ => true | Released _ => false end.
Definition is_released (e : event) : bool :=
  match e with Issued _ => false | Released _ => true end.
Definition issued (evs : list event) : nat := length (List.filter is_issued evs).
Definition released (evs : list event) : nat := length (List.filter is_released evs).

(** The stores a program can get to. *)
Inductive reachable (tracking : bool) : Store → Prop :=
| reach_initial : reachable tracking initial
| reach_Allocate w p w' :
    reachable tracking w → Allocate tracking w = Ret (p, w') → reachable tracking w'
| reach_Release w p w' :
    reachable tracking w → Release tracking p w = Ret (tt, w') → reachable tracking w'
| reach_Shutdown w w' :
    reachable tracking w → Shutdown w = Ret (tt, w') → reachable tracking w'.

(** The blocks of a pool lie below the heap break. *)
Definition blocks_below (pool : ObjectPool) (brk : N) : Prop :=
  ∀ c, c ∈ pool_cells pool → (c < brk)%N.

Definition pool_inv (w : Store) : Prop :=
  match sm_pStaticData w with
  | Some sd =>
      poolBlockSize (proxyPool sd) = POOL_BLOCK_SIZE ∧
      blocks_below (proxyPool sd) (heapBreak w)
  | None => True
  end.

(** With memory tracking, free and live cells partition what was carved. *)
Definition tracked_inv (w : Store) : Prop :=
  match sm_pStaticData w with
  | Some sd =>
      NoDup (poolFree (proxyPool sd)) ∧
      (∀ c, c ∈ poolFree (proxyPool sd) → c ∉ activeProxySet sd) ∧
      (∀ c, c ∈ poolFree (proxyPool sd) → c ∈ pool_cells (proxyPool sd)) ∧
      (∀ c, c ∈ activeProxySet sd → c ∈ pool_cells (proxyPool sd))
  | None => True
  end.

(** The static data [Allocate] works on: the one there is, or a new one. *)
Definition static_or_new (w : Store) : StaticData :=
  match sm_pStaticData w with Some sd => sd | None => StaticData_ctor end.

(** The store after the first [Allocate] of a build with memory tracking. *)
Definition after_first_Allocate : Store :=
  match Allocate true initial with
  | Ret (_, w) => w
  | _ => initial
  end.

End TypeRefCountSupport.


(** ** The type registry *)

Module Type_.

(** [Name]: an interned string; [IsEmpty] holds of the empty one. *)
Definition Name : Type := string.

Definition Name_IsEmpty (name : Name) : bool :=
  match name with EmptyString => true | String _ _ => false end.

(** The address of a live object ([Type], [GameObject] or [Package]). *)
Definition addr : Type := positive.

(** The data members of [class Type].  [TypePtr] and [GameObjectPtr] are
    nullable smart pointers; the reference counts behind them are managed by
    code outside [Type.cpp] and are not part of the state. *)
Record Descriptor : Type := mkType {
  m_name : Name;
  m_spTypeParent : option addr;
  m_spTypeTemplate : option addr;
  m_typeFlags : N
}.

(** [Type::Type()]: [m_typeFlags( 0 )], a default name and null pointers. *)
Definition Type_ctor : Descriptor := mkType EmptyString None None 0.

Inductive TraceLevel : Type := TRACE_INFO | TRACE_ERROR.

(** One call of [HELIUM_TRACE( level, format, ... )]. *)
Record TraceEntry : Type := mkTrace {
  traceLevel : TraceLevel;
  traceFormat : string;
  traceArgs : list string
}.

Definition dq : string := String (Ascii.ascii_of_nat 34) EmptyString.
Definition nl : string := String (Ascii.ascii_of_nat 10) EmptyString.

Definition fmt_owner : string :=
  "Type::Initialize(): Failed to set type " +:+ dq +:+ "%s" +:+ dq
    +:+ " template object owner." +:+ nl.
Definition fmt_name : string :=
  "Type::Initialize(): Failed to set type " +:+ dq +:+ "%s" +:+ dq
    +:+ " template object name." +:+ nl.
Definition fmt_register : string :=
  "Type::Initialize(): Failed to register type " +:+ dq +:+ "%s" +:+ dq
    +:+ " template object." +:+ nl.
Definition fmt_shutdown_begin : string :=
  "Shutting down Type registration." +:+ nl.
Definition fmt_shutdown_end : string :=
  "Type registration shutdown complete." +:+ nl.

(** The part of the object system [Type.cpp] calls into ([GameObject.cpp] is
    not part of the sources at hand): the state of all game objects and
    packages, the three operations on the template object that can fail, the
    flag setter, the constant [GameObject::FLAG_DEFAULT_TEMPLATE], and the
    accessors of the attributes the operations set. *)
Class ObjectSystem : Type := {
  Objects : Type;
  SetOwner : addr → addr → Objects → bool * Objects;
  SetName : addr → Name → Objects → bool * Objects;
  SetFlags : addr → N → Objects → Objects;
  RegisterObject : addr → Objects → bool * Objects;
  FLAG_DEFAULT_TEMPLATE : N;
  GetOwner : Objects → addr → option addr;
  GetName : Objects → addr → Name;
  GetFlags : Objects → addr → N
}.

(** What the names of the operations promise: a setter that succeeds sets
    its attribute ([SetFlags], called on an object that was just renamed,
    adds its bits), and no operation disturbs an attribute set by an earlier
    one, also not when it fails. *)
Class ObjectSystemLaws (OS : ObjectSystem) : Prop := {
  SetOwner_sets : ∀ t pkg o o',
    SetOwner t pkg o = (true, o') → GetOwner o' t = Some pkg;
  SetName_sets : ∀ t n o b o',
    SetName t n o = (b, o') →
    GetOwner o' t = GetOwner o t ∧ (b = true → GetName o' t = n);
  SetFlags_sets : ∀ t n f o0 o,
    SetName t n o0 = (true, o) →
    GetOwner (SetFlags t f o) t = GetOwner o t ∧
    GetName (SetFlags t f o) t = GetName o t ∧
    GetFlags (SetFlags t f o) t = N.lor (GetFlags o t) f;
  RegisterObject_keeps : ∀ t o b o',
    RegisterObject t o = (b, o') →
    GetOwner o' t = GetOwner o t ∧ GetName o' t = GetName o t ∧
    GetFlags o' t = GetFlags o t
}.

Section Registry.
Context {OS : ObjectSystem}.

(** The statics of [Type] ([sm_pLookupMap], [sm_spTypePackage]), the static
    [GameObject::sm_spStaticType], the heap of [Type] objects, the object
    system and the trace output. *)
Record World : Type := mkWorld {
  types : gmap addr Descriptor;
  sm_pLookupMap : option (gmap Name (option addr));
  sm_spTypePackage : option addr;
  sm_spStaticType : option addr;
  objects : Objects;
  traceLog : list TraceEntry
}.

Definition set_types (f : gmap addr Descriptor → gmap addr Descriptor) (w : World) : World :=
  mkWorld (f (types w)) (sm_pLookupMap w) (sm_spTypePackage w) (sm_spStaticType w)
          (objects w) (traceLog w).
Definition set_LookupMap (m : option (gmap Name (option addr))) (w : World) : World :=
  mkWorld (types w) m (sm_spTypePackage w) (sm_spStaticType w) (objects w) (traceLog w).
Definition set_TypePackage (p : option addr) (w : World) : World :=
  mkWorld (types w) (sm_pLookupMap w) p (sm_spStaticType w) (objects w) (traceLog w).
Definition set_StaticType (p : option addr) (w : World) : World :=
  mkWorld (types w) (sm_pLookupMap w) (sm_spTypePackage w) p (objects w) (traceLog w).
Definition set_objects (o : Objects) (w : World) : World :=
  mkWorld (types w) (sm_pLookupMap w) (sm_spTypePackage w) (sm_spStaticType w) o
          (traceLog w).
Definition add_trace (e : TraceEntry) (w : World) : World :=
  mkWorld (types w) (sm_pLookupMap w) (sm_spTypePackage w) (sm_spStaticType w)
          (objects w) (traceLog w ++ [e]).

(** Modelled from the spec: the macro [HELIUM_TRACE] is not part of the
    sources at hand; it logs its arguments. *)
Definition HELIUM_TRACE (level : TraceLevel) (fmt : string) (args : list string)
  : M World unit :=
  modify (add_trace (mkTrace level fmt args)).

(** A call into the object system, with or without a result. *)
Definition call_objects {A} (f : Objects → A * Objects) : M World A :=
  λ w, let '(a, o) := f (objects w) in Ret (a, set_objects o w).
Definition update_objects (f : Objects → Objects) : M World unit :=
  modify (λ w, set_objects (f (objects w)) w).

(** Reading and writing the members of the [Type] object at [p]. *)
Definition read {A} (p : addr) (field : Descriptor → A) : M World A :=
  λ w, match types w !! p with
       | Some d => Ret (field d, w)
       | None => Undefined
       end.
Definition write (p : addr) (f : Descriptor → Descriptor) : M World unit :=
  λ w, match types w !! p with
       | Some d => Ret (tt, set_types <[p := f d]> w)
       | None => Undefined
       end.

(** [new Type]: a default-constructed object at an address no live [Type]
    object has. *)
Definition new_Type : M World (option addr) :=
  λ w, let p := fresh (dom (types w)) in
       Ret (Some p, set_types <[p := Type_ctor]> w).

(** [Type::GetName()] and [Type::GetTypeParent()]. *)
Definition Type_GetName (p : addr) : M World Name := read p m_name.
Definition GetTypeParent (p : addr) : M World (option addr) := read p m_spTypeParent.

(** The loop of [Type::IsSubtypeOf]; every iteration uses one unit of fuel. *)
Fixpoint IsSubtypeOf_loop (fuel : nat) (pThisType : option addr) (pType : addr)
  : M World bool :=
  match fuel with
  | O => λ _, OutOfFuel
  | S fuel' =>
      match pThisType with
      | None => ret false
      | Some p =>
          if decide (p = pType) then ret true
          else
            parent <~ GetTypeParent p ;;
            IsSubtypeOf_loop fuel' parent pType
      end
  end.

(** [Type::IsSubtypeOf( pType )] called on the object at [this]. *)
Definition IsSubtypeOf (fuel : nat) (this : addr) (pType : option addr)
  : M World bool :=
  HELIUM_ASSERT (non_null pType) ;;;
  match pType with
  | Some t => IsSubtypeOf_loop fuel (Some this) t
  | None => undefined
  end.

(** [Type::SetTypePackage( pPackage )]. *)
Definition SetTypePackage (pPackage : option addr) : M World unit :=
  HELIUM_ASSERT (non_null pPackage) ;;;
  spTypePackage <~ gets sm_spTypePackage ;;
  HELIUM_ASSERT (negb (non_null spTypePackage)) ;;;
  modify (set_TypePackage pPackage).

(** Modelled from the spec: the map class behind [Type::LookupMap] is not
    part of the sources at hand.  [Insert] adds a key-value pair and tells
    whether the key was new; an existing entry is kept. *)
Definition LookupMap_Insert (key : Name) (value : option addr) : M World bool :=
  λ w, match sm_pLookupMap w with
       | Some m =>
           match m !! key with
           | Some _ => Ret (false, w)
           | None => Ret (true, set_LookupMap (Some (<[key := value]> m)) w)
           end
       | None => Undefined
       end.
(** Modelled from the spec: [Remove] deletes the entry of a key and tells
    whether there was one. *)
Definition LookupMap_Remove (key : Name) : M World bool :=
  λ w, match sm_pLookupMap w with
       | Some m =>
           match m !! key with
           | Some _ => Ret (true, set_LookupMap (Some (delete key m)) w)
           | None => Ret (false, w)
           end
       | None => Undefined
       end.

(** [Type::Create( name, pTypePackage, pParent, pTemplate, flags )]. *)
Definition Create (name : Name) (pTypePackage pParent pTemplate : option addr)
    (flags : N) : M World (option addr) :=
  HELIUM_ASSERT (negb (Name_IsEmpty name)) ;;;
  HELIUM_ASSERT (non_null pTypePackage) ;;;
  HELIUM_ASSERT (non_null pTemplate) ;;;
  match pTypePackage, pTemplate with
  | Some pkg, Some tmpl =>
      ok <~ call_objects (SetOwner tmpl pkg) ;;
      if negb ok then
        HELIUM_TRACE TRACE_ERROR fmt_owner [name] ;;;
        ret None
      else
      ok <~ call_objects (SetName tmpl name) ;;
      if negb ok then
        HELIUM_TRACE TRACE_ERROR fmt_name [name] ;;;
        ret None
      else
      update_objects (SetFlags tmpl FLAG_DEFAULT_TEMPLATE) ;;;
      ok <~ call_objects (RegisterObject tmpl) ;;
      if negb ok then
        HELIUM_TRACE TRACE_ERROR fmt_register [name] ;;;
        ret None
      else
      pType <~ new_Type ;;
      HELIUM_ASSERT (non_null pType) ;;;
      match pType with
      | Some p =>
          write p (λ d, mkType name (m_spTypeParent d) (m_spTypeTemplate d) (m_typeFlags d)) ;;;
          write p (λ d, mkType (m_name d) pParent (m_spTypeTemplate d) (m_typeFlags d)) ;;;
          write p (λ d, mkType (m_name d) (m_spTypeParent d) pTemplate (m_typeFlags d)) ;;;
          write p (λ d, mkType (m_name d) (m_spTypeParent d) (m_spTypeTemplate d) flags) ;;;
          pLookupMap <~ gets sm_pLookupMap ;;
          (if negb (non_null pLookupMap)
           then
             modify (set_LookupMap (Some ∅)) ;;;
             pNewMap <~ gets sm_pLookupMap ;;
             HELIUM_ASSERT (non_null pNewMap)
           else ret tt) ;;;
          key <~ Type_GetName p ;;
          HELIUM_VERIFY (LookupMap_Insert key pType) ;;;
          ret pType
      | None => undefined
      end
  | _, _ => undefined
  end.

(** [Type::Unregister( pType )]. *)
Definition Unregister (pType : option addr) : M World unit :=
  HELIUM_ASSERT (non_null pType) ;;;
  pLookupMap <~ gets sm_pLookupMap ;;
  HELIUM_ASSERT (non_null pLookupMap) ;;;
  match pType with
  | Some p =>
      key <~ Type_GetName p ;;
      HELIUM_VERIFY (LookupMap_Remove key) ;;;
      write p (λ d, mkType (m_name d) None (m_spTypeTemplate d) (m_typeFlags d)) ;;;
      write p (λ d, mkType (m_name d) (m_spTypeParent d) None (m_typeFlags d))
  | None => undefined
  end.

(** [Type::Find( typeName )]. *)
Definition Find (typeName : Name) : M World (option addr) :=
  pLookupMap <~ gets sm_pLookupMap ;;
  match pLookupMap with
  | Some m =>
      match m !! typeName with
      | Some pType =>
          HELIUM_ASSERT (non_null pType) ;;;
          ret pType
      | None => ret None
      end
  | None => ret None
  end.

(** Modelled from the spec: [GameObject::ReleaseStaticType()] is not part of
    the sources at hand.  It is the engine-specific unregistration of the
    distinguished root type: the type [GameObject::sm_spStaticType] refers
    to, if any, is unregistered and the reference is dropped. *)
Definition GameObject_ReleaseStaticType : M World unit :=
  spStaticType <~ gets sm_spStaticType ;;
  match spStaticType with
  | Some _ =>
      Unregister spStaticType ;;;
      modify (set_StaticType None)
  | None => ret tt
  end.

(** The two releases of [Type::Shutdown()]. *)
Definition delete_LookupMap : M World unit := modify (set_LookupMap None).
Definition release_TypePackage : M World unit := modify (set_TypePackage None).

(** The three releases of [Type::Shutdown()].  The call keeps a journal of
    them: an entry names a release that was completed and holds the world
    it left. *)
Inductive ShutdownStep : Type :=
| StepReleaseStaticType
| StepDeleteLookupMap
| StepReleaseTypePackage.

(** A call whose completion is entered in the journal, and one that leaves
    the journal alone. *)
Definition journaled (e : ShutdownStep) (c : M World unit)
  : M (World * list (ShutdownStep * World)) unit :=
  λ s, match c s.1 with
       | Ret (_, w') => Ret (tt, (w', s.2 ++ [(e, w')]))
       | Trap => Trap
       | Undefined => Undefined
       | OutOfFuel => OutOfFuel
       end.
Definition unjournaled (c : M World unit)
  : M (World * list (ShutdownStep * World)) unit :=
  λ s, match c s.1 with
       | Ret (_, w') => Ret (tt, (w', s.2))
       | Trap => Trap
       | Undefined => Undefined
       | OutOfFuel => OutOfFuel
       end.

(** [Type::Shutdown()], statement by statement, with the journal. *)
Definition Shutdown_steps : M (World * list (ShutdownStep * World)) unit :=
  unjournaled (HELIUM_TRACE TRACE_INFO fmt_shutdown_begin []) ;;;
  journaled StepReleaseStaticType GameObject_ReleaseStaticType ;;;
  journaled StepDeleteLookupMap delete_LookupMap ;;;
  journaled StepReleaseTypePackage release_TypePackage ;;;
  unjournaled (HELIUM_TRACE TRACE_INFO fmt_shutdown_end []).

(** [Type::Shutdown()]: the call started with an empty journal; the journal
    is no part of the state and is dropped at the end. *)
Definition Shutdown : M World unit :=
  λ w, match Shutdown_steps (w, []) with
       | Ret (_, (w', _)) => Ret (tt, w')
       | Trap => Trap
       | Undefined => Undefined
       | OutOfFuel => OutOfFuel
       end.

(** The parent chain that starts at a pointer: the nodes a walk along
    [m_spTypeParent] visits until it reaches the null parent.  A pointer has
    such a (finite) chain exactly when the walk from it runs through live
    descriptors and through no cycle. *)
Inductive parent_chain (w : World) : option addr → list addr → Prop :=
| chain_root : parent_chain w None []
| chain_node p d l :
    types w !! p = Some d →
    parent_chain w (m_spTypeParent d) l →
    parent_chain w (Some p) (p :: l).

(** The three steps [Create] takes on the template object before it builds
    the descriptor. *)
Inductive TemplateStep : Type := StepOwner | StepName | StepRegister.

Definition step_format (s : TemplateStep) : string :=
  match s with
  | StepOwner => fmt_owner
  | StepName => fmt_name
  | StepRegister => fmt_register
  end.

(** The state of the object system after the first, the second and the last
    two of the calls [Create] makes, each with the result of the call. *)
Definition after_SetOwner (tmpl pkg : addr) (o : Objects) : bool * Objects :=
  SetOwner tmpl pkg o.
Definition after_SetName (tmpl pkg : addr) (name : Name) (o : Objects) : bool * Objects :=
  SetName tmpl name (after_SetOwner tmpl pkg o).2.
Definition after_RegisterObject (tmpl pkg : addr) (name : Name) (o : Objects)
  : bool * Objects :=
  RegisterObject tmpl (SetFlags tmpl FLAG_DEFAULT_TEMPLATE (after_SetName tmpl pkg name o).2).

(** The step of [Create] that fails on the template object, if one does, and
    the state the object system is in when [Create] is through with it. *)
Definition template_steps (tmpl pkg : addr) (name : Name) (o : Objects)
  : option TemplateStep * Objects :=
  if negb (after_SetOwner tmpl pkg o).1 then (Some StepOwner, (after_SetOwner tmpl pkg o).2)
  else if negb (after_SetName tmpl pkg name o).1
       then (Some StepName, (after_SetName tmpl pkg name o).2)
  else if negb (after_RegisterObject tmpl pkg name o).1
       then (Some StepRegister, (after_RegisterObject tmpl pkg name o).2)
  else (None, (after_RegisterObject tmpl pkg name o).2).

(** The registry as [Find] sees it: no map is an empty map. *)
Definition registry (w : World) : gmap Name (option addr) :=
  match sm_pLookupMap w with Some m => m | None => ∅ end.

(** Everything of a world but the object system and the trace output. *)
Definition type_state (w : World)
  : gmap addr Descriptor * option (gmap Name (option addr)) * option addr * option addr :=
  (types w, sm_pLookupMap w, sm_spTypePackage w, sm_spStaticType w).

(** The world a successful [Create] leaves: a new descriptor at a fresh
    address, entered in the map under its name; [o] is the state of the
    object system after the steps on the template. *)
Definition created_world (name : Name) (pParent : option addr) (tmpl : addr)
    (flags : N) (o : Objects) (w : World) : World :=
  let p := fresh (dom (types w)) in
  mkWorld (<[p := mkType name pParent (Some tmpl) flags]> (types w))
          (Some (<[name := Some p]> (registry w)))
          (sm_spTypePackage w) (sm_spStaticType w) o (traceLog w).

(** The world a failed [Create] leaves: the object system is in the state
    [o] the failing step left, and one error was logged. *)
Definition failed_world (name : Name) (s : TemplateStep) (o : Objects) (w : World)
  : World :=
  add_trace (mkTrace TRACE_ERROR (step_format s) [name]) (set_objects o w).

(** The world [Unregister] leaves when called on the descriptor [d] at [p]:
    the entry under the name of [d] is gone from the map [m], and the two
    references of the descriptor are null. *)
Definition unregistered_world (p : addr) (d : Descriptor)
    (m : gmap Name (option addr)) (w : World) : World :=
  mkWorld (<[p := mkType (m_name d) None None (m_typeFlags d)]> (types w))
          (Some (delete (m_name d) m))
          (sm_spTypePackage w) (sm_spStaticType w) (objects w) (traceLog w).

(** [later n w w']: the program gets from [w] to [w'] by calls of [Create]
    and by calls of [Unregister] on descriptors whose name is not [n]. *)
Inductive later (n : Name) : World → World → Prop :=
| later_refl w : later n w w
| later_Create w w1 w2 name pPkg pParent pTmpl flags r :
    later n w w1 →
    Create name pPkg pParent pTmpl flags w1 = Ret (r, w2) →
    later n w w2
| later_Unregister w w1 w2 p d :
    later n w w1 →
    types w1 !! p = Some d → m_name d ≠ n →
    Unregister (Some p) w1 = Ret (tt, w2) →
    later n w w2.

(** Modelled from the spec: [Type::ConstIterator] (Type.h) wraps an iterator
    of the lookup map and is not part of the sources at hand.  An iterator
    of a map is the position of an entry in the sequence of the entries of
    the map, [Begin()] the first position and [End()] the position past the
    last; the iterator [GetTypeBegin] and [GetTypeEnd] fill with zeros when
    there is no map is a value of its own. *)
Inductive ConstIterator : Type :=
| ZeroIterator
| MapIterator (index : nat).

(** [Type::GetTypeBegin()]. *)
Definition GetTypeBegin : M World ConstIterator :=
  pLookupMap <~ gets sm_pLookupMap ;;
  match pLookupMap with
  | Some m => ret (MapIterator 0)
  | None => ret ZeroIterator
  end.

(** [Type::GetTypeEnd()]. *)
Definition GetTypeEnd : M World ConstIterator :=
  pLookupMap <~ gets sm_pLookupMap ;;
  match pLookupMap with
  | Some m => ret (MapIterator (length (map_to_list m)))
  | None => ret ZeroIterator
  end.

(** Modelled from the spec: the entries a loop visits that starts at
    [first], advances by one and stops when it is at [last]. *)
Definition visited (w : World) (first last : ConstIterator)
  : list (Name * option addr) :=
  match first, last with
  | MapIterator i, MapIterator j => take (j - i) (drop i (map_to_list (registry w)))
  | _, _ => []
  end.

(** Every entry of the registry refers to a live descriptor that carries
    the name the entry is filed under. *)
Definition registry_wf (w : World) : Prop :=
  ∀ n v, registry w !! n = Some v →
    ∃ p d, v = Some p ∧ types w !! p = Some d ∧ m_name d = n.

(** Every live descriptor has a finite parent chain: parents are live and
    there is no cycle. *)
Definition hierarchy_wf (w : World) : Prop :=
  ∀ p d, types w !! p = Some d → ∃ l, parent_chain w (Some p) l.

(** The state before anything was registered. *)
Definition initial (o : Objects) : World := mkWorld ∅ None None None o [].

End Registry.
Arguments World : clear implicits.

End Type_.


(** ** A reference object system

    An object system small enough to run [Type::Create] on: objects carry a
    name, an owner and flags; an object cannot be re-owned by a package that
    is not live, cannot take a name one of its siblings has, and cannot be
    registered twice. *)

Module SampleObjects.
Import Type_.

Record GameObject : Type := mkGameObject {
  objName : Name;
  objOwner : option addr;
  objFlags : N;
  objRegistered : bool
}.

Abbreviation Heap := (gmap addr GameObject).

Definition sibling_named (o : Heap) (self : addr) (owner : option addr) (n : Name) : bool :=
  existsb
    (λ kv, bool_decide (kv.1 ≠ self) && bool_decide (objOwner kv.2 = owner)
           && bool_decide (objName kv.2 = n))
    (map_to_list o).

Definition sample_SetOwner (t pkg : addr) (o : Heap) : bool * Heap :=
  match o !! t, o !! pkg with
  | Some g, Some _ =>
      (true, <[t := mkGameObject (objName g) (Some pkg) (objFlags g) (objRegistered g)]> o)
  | _, _ => (false, o)
  end.

Definition sample_SetName (t : addr) (n : Name) (o : Heap) : bool * Heap :=
  match o !! t with
  | Some g =>
      if sibling_named o t (objOwner g) n then (false, o)
      else (true, <[t := mkGameObject n (objOwner g) (objFlags g) (objRegistered g)]> o)
  | None => (false, o)
  end.

Definition sample_SetFlags (t : addr) (f : N) (o : Heap) : Heap :=
  match o !! t with
  | Some g =>
      <[t := mkGameObject (objName g) (objOwner g) (N.lor (objFlags g) f) (objRegistered g)]> o
  | None => o
  end.

Definition sample_RegisterObject (t : addr) (o : Heap) : bool * Heap :=
  match o !! t with
  | Some g =>
      if objRegistered g then (false, o)
      else (true, <[t := mkGameObject (objName g) (objOwner g) (objFlags g) true]> o)
  | None => (false, o)
  end.

Definition sample_GetOwner (o : Heap) (t : addr) : option addr := o !! t ≫= objOwner.
Definition sample_GetName (o : Heap) (t : addr) : Name :=
  match o !! t with Some g => objName g | None => EmptyString end.
Definition sample_GetFlags (o : Heap) (t : addr) : N :=
  match o !! t with Some g => objFlags g | None => 0%N end.

#[global] Instance sample : ObjectSystem := {|
  Objects := Heap;
  SetOwner := sample_SetOwner;
  SetName := sample_SetName;
  SetFlags := sample_SetFlags;
  RegisterObject := sample_RegisterObject;
  FLAG_DEFAULT_TEMPLATE := 1;
  GetOwner := sample_GetOwner;
  GetName := sample_GetName;
  GetFlags := sample_GetFlags
|}.

(** A package at address 1 and three fresh template objects at 2, 3, 4. *)
Definition fresh_object : GameObject := mkGameObject EmptyString None 0 false.
Definition heap0 : Heap := {[ 1%positive := fresh_object; 2%positive := fresh_object;
                              3%positive := fresh_object; 4%positive := fresh_object ]}.
Definition world0 : World sample := initial heap0.

(** The result of a call, or the given default when there is none. *)
Definition result_or {A} (d : A) (r : outcome A) : A :=
  match r with Ret a => a | _ => d end.

(** [world0] after [Create( "Foo", 1, NULL, 2, 0 )]. *)
Definition world_Foo : World sample :=
  (result_or (None, world0) (Create "Foo" (Some 1%positive) None (Some 2%positive) 0 world0)).2.

Definition after_Create (name : Name) (pkg : addr) (pParent : option addr) (tmpl : addr)
    (w : World sample) : World sample :=
  (result_or (None, w) (Create name (Some pkg) pParent (Some tmpl) 0 w)).2.

(** The types [Object], [Actor] and [Player], each the parent of the next;
    their descriptors are at the addresses 1, 2 and 3. *)
Definition world_scenario : World sample :=
  after_Create "Player" 1%positive (Some 2%positive) 4%positive
    (after_Create "Actor" 1%positive (Some 1%positive) 3%positive
       (after_Create "Object" 1%positive None 2%positive world0)).

(** The same with the package set and [Object] as the root type of the
    engine. *)
Definition world_rooted : World sample :=
  set_StaticType (Some 1%positive) (set_TypePackage (Some 1%positive) world_scenario).

Definition after_Unregister (p : addr) (w : World sample) : World sample :=
  (result_or (tt, w) (Unregister (Some p) w)).2.

(** [Foo] registered, unregistered and registered anew, with the object at
    3 as package and the template at 4: the first descriptor, at 1, is
    still live and still named [Foo]; the entry refers to the second,
    at 2. *)
Definition world_Foo_again : World sample :=
  after_Create "Foo" 3%positive None 4%positive (after_Unregister 1%positive world_Foo).

End SampleObjects.


(** ** Properties of the proxy store *)

Module ProxyStoreFacts.
Import TypeRefCountSupport.

(** *** The pool *)

Lemma elem_of_block_cells c base size :
  c ∈ block_cells base size ↔ (base ≤ c < base + size)%N.
Proof.
  unfold block_cells. rewrite list_elem_of_fmap. split.
  - intros (i & -> & Hi%elem_of_seq). lia.
  - intros [Hlo Hhi]. exists (N.to_nat (c - base)). split; [lia|].
    apply elem_of_seq. lia.
Qed.

Lemma NoDup_block_cells base size : NoDup (block_cells base size).
Proof.
  unfold block_cells. apply NoDup_fmap_2; [|apply NoDup_seq].
  intros i j Hij. lia.
Qed.

Lemma elem_of_pool_cells c pool :
  c ∈ pool_cells pool ↔
  ∃ b, b ∈ poolBlocks pool ∧ (b ≤ c < b + poolBlockSize pool)%N.
Proof.
  unfold pool_cells. rewrite list_elem_of_bind. split.
  - intros (b & Hc%elem_of_block_cells & Hb). eauto.
  - intros (b & Hb & Hc). exists b. by rewrite elem_of_block_cells.
Qed.

(** The three ways [ObjectPool::Allocate] can go: a free cell is reused, a
    new block is carved at the heap break, or the block size is zero and
    there is no cell to give. *)
Lemma ObjectPool_Allocate_cases pool brk p pool' brk' :
  ObjectPool_Allocate pool brk = (p, pool', brk') →
  poolBlockSize pool' = poolBlockSize pool ∧
  ( (∃ c, p = Some c ∧ poolFree pool = c :: poolFree pool' ∧
          poolBlocks pool' = poolBlocks pool ∧ brk' = brk)
  ∨ (∃ c, p = Some c ∧ poolFree pool = [] ∧
          block_cells brk (poolBlockSize pool) = c :: poolFree pool' ∧
          poolBlocks pool' = brk :: poolBlocks pool ∧
          brk' = (brk + poolBlockSize pool)%N)
  ∨ (p = None ∧ poolBlockSize pool = 0%N ∧ pool' = pool ∧ brk' = brk) ).
Proof.
  unfold ObjectPool_Allocate. destruct (poolFree pool) as [|c rest] eqn:Hfree.
  - destruct (block_cells brk (poolBlockSize pool)) as [|c rest] eqn:Hblock.
    + intros [= <- <- <-]. split; [done|]. right; right. split_and!; try done.
      apply (f_equal length) in Hblock. unfold block_cells in Hblock.
      rewrite length_fmap, length_seq in Hblock. simpl in Hblock. lia.
    + intros [= <- <- <-]. split; [done|]. right; left. eauto 10.
  - intros [= <- <- <-]. split; [done|]. left. eauto 10.
Qed.

Lemma ObjectPool_Allocate_total pool brk :
  poolBlockSize pool ≠ 0%N →
  ∃ c pool' brk', ObjectPool_Allocate pool brk = (Some c, pool', brk').
Proof.
  intros Hsize.
  destruct (ObjectPool_Allocate pool brk) as [[[c|] pool'] brk'] eqn:Hal; [eauto|].
  apply ObjectPool_Allocate_cases in Hal as (_ & [(c & [=] & _)|[(c & [=] & _)|(_ & ? & _)]]).
  done.
Qed.

#[local] Opaque ObjectPool_Allocate.

Ltac unfold_store :=
  unfold Allocate, Release, Shutdown, GetActiveProxyCount, GetFirstActiveProxy,
    pool_Allocate, pool_Release, set_Insert, set_Remove, set_StaticData,
    ConcurrentHashSet_Insert, ConcurrentHashSet_Remove, active in *;
  unfold_monad; simpl in *.

Ltac destruct_pool_Allocate c pool brk :=
  match goal with
  | |- context [ObjectPool_Allocate ?p ?b] =>
      destruct (ObjectPool_Allocate p b) as [[[c|] pool] brk] eqn:?
  end.

(** What a tracked [Allocate] that returns has done to the live set. *)
Lemma Allocate_tracked_step w p w' :
  Allocate true w = Ret (p, w') →
  ∃ c, p = Some c ∧ (c ∉ active w) ∧ active w' = {[c]} ∪ active w ∧
       is_Some (sm_pStaticData w').
Proof.
  destruct w as [[sd|] brk]; unfold_store.
  - destruct_pool_Allocate c pool brk'; simpl; [|discriminate].
    destruct (decide (c ∈ activeProxySet sd)); simpl; [discriminate|].
    intros [= <- <-]; simpl. eauto 10.
  - destruct_pool_Allocate c pool brk'; simpl; [|discriminate].
    destruct (decide (c ∈ (∅ : gset cell))) as [Hin|Hnin]; simpl; [discriminate|].
    intros [= <- <-]; simpl. eauto 10.
Qed.

(** What a tracked [Release] that returns has done to the live set. *)
Lemma Release_tracked_step w p w' :
  Release true p w = Ret (tt, w') →
  ∃ c, p = Some c ∧ c ∈ active w ∧ active w' = active w ∖ {[c]} ∧
       is_Some (sm_pStaticData w').
Proof.
  destruct p as [c|]; [|discriminate].
  destruct w as [[sd|] brk]; unfold_store; [|discriminate].
  destruct (decide (c ∈ activeProxySet sd)); simpl; [|discriminate].
  intros [= <-]; simpl. eauto 10.
Qed.

Lemma live_after_nil c : ¬ live_after [] c.
Proof. intros (pre & post & Heq & _). by destruct pre. Qed.

Lemma live_after_cons e evs c :
  live_after (e :: evs) c ↔ (e = Issued c ∧ Released c ∉ evs) ∨ live_after evs c.
Proof.
  split.
  - intros (pre & post & Heq & Hpost). destruct pre as [|e' pre]; simpl in Heq.
    + injection Heq as -> ->. by left.
    + injection Heq as -> ->. right. by exists pre, post.
  - intros [[-> Hnot] | (pre & post & -> & Hpost)].
    + by exists [], evs.
    + by exists (e :: pre), post.
Qed.

Lemma issued_cons e evs :
  issued (e :: evs) = (if is_issued e then S (issued evs) else issued evs).
Proof. unfold issued. simpl. by destruct (is_issued e). Qed.

Lemma released_cons e evs :
  released (e :: evs) = (if is_released e then S (released evs) else released evs).
Proof. unfold released. simpl. by destruct (is_released e). Qed.

Lemma size_insert_fresh (c : cell) (s : gset cell) :
  c ∉ s → Z.of_nat (size ({[c]} ∪ s)) = (Z.of_nat (size s) + 1)%Z.
Proof.
  intros Hc. rewrite size_union, size_singleton; [lia|].
  intros x Hx%elem_of_singleton ?. by subst.
Qed.

Lemma size_remove_live (c : cell) (s : gset cell) :
  c ∈ s → Z.of_nat (size (s ∖ {[c]})) = (Z.of_nat (size s) - 1)%Z.
Proof.
  intros Hc.
  assert ({[c]} ⊆ s) as Hsub by (intros x Hx%elem_of_singleton; by subst).
  rewrite (size_difference _ _ Hsub).
  apply subseteq_size in Hsub. rewrite size_singleton in *. lia.
Qed.

(** The live set along a run that starts in an arbitrary store. *)
Lemma run_tracked_from calls : ∀ w evs w',
  run true calls w = Ret (evs, w') →
  (∀ c, c ∈ active w' ↔ live_after evs c ∨ (c ∈ active w ∧ Released c ∉ evs)) ∧
  (Z.of_nat (size (active w')) =
     Z.of_nat (size (active w)) + Z.of_nat (issued evs) - Z.of_nat (released evs))%Z ∧
  (calls ≠ [] → is_Some (sm_pStaticData w')).
Proof.
  induction calls as [|[|p] calls IH]; intros w evs w' Hrun; simpl in Hrun.
  - injection Hrun as <- <-. split_and!; [|unfold issued, released; simpl; lia|done].
    intros c. split; [intros ?; right; split; [done|apply not_elem_of_nil]|].
    intros [H%live_after_nil|[? _]]; done.
  - unfold bind at 1 in Hrun.
    destruct (Allocate true w) as [[p w1]| | |] eqn:Hal; try discriminate.
    apply Allocate_tracked_step in Hal as (c0 & -> & Hfresh & Hact & Hsome).
    unfold bind at 1 in Hrun.
    destruct (run true calls w1) as [[evs1 w2]| | |] eqn:Hrest; try discriminate.
    injection Hrun as <- <-. simpl.
    destruct (IH _ _ _ Hrest) as (Hlive & Hsize & Hst).
    split_and!.
    + intros c. rewrite Hlive, live_after_cons, Hact.
      rewrite elem_of_union, elem_of_singleton, elem_of_cons.
      split.
      * intros [?|[[->|?] ?]]; [by left; right|by left; left|].
        right. split; [done|]. intros [?|?]; done.
      * intros [[[[= ->] ?]|?]|[? Hn]]; [by right; split; [left|]|by left|].
        right. split; [by right|]. intros ?; apply Hn; by right.
    + rewrite issued_cons, released_cons; simpl.
      rewrite Hsize, Hact, (size_insert_fresh c0 (active w) Hfresh). lia.
    + intros _. destruct calls; [|by apply Hst].
      simpl in Hrest. injection Hrest as <- <-. done.
  - unfold bind at 1 in Hrun.
    destruct (Release true p w) as [[[] w1]| | |] eqn:Hrel; try discriminate.
    apply Release_tracked_step in Hrel as (c0 & -> & Hin & Hact & Hsome).
    unfold bind at 1 in Hrun.
    destruct (run true calls w1) as [[evs1 w2]| | |] eqn:Hrest; try discriminate.
    injection Hrun as <- <-. simpl.
    destruct (IH _ _ _ Hrest) as (Hlive & Hsize & Hst).
    split_and!.
    + intros c. rewrite Hlive, live_after_cons, Hact.
      rewrite elem_of_difference, elem_of_singleton, elem_of_cons.
      split.
      * intros [?|[[? Hne] ?]]; [by left; right|].
        right. split; [done|]. intros [[= ->]|?]; done.
      * intros [[[[=] ?]|?]|[? Hn]]; [by left|].
        right. split; [split; [done|]|].
        -- intros ->. apply Hn. by left.
        -- intros ?; apply Hn; by right.
    + rewrite issued_cons, released_cons; simpl.
      rewrite Hsize, Hact, (size_remove_live c0 (active w) Hin). lia.
    + intros _. destruct calls; [|by apply Hst].
      simpl in Hrest. injection Hrest as <- <-. done.
Qed.

(** *** [Allocate] and [Release], call by call *)

(** [Allocate] returns exactly when the pool gives a cell that, under memory
    tracking, is not in the live set yet. *)
Lemma Allocate_returns_iff tracking w p w' :
  Allocate tracking w = Ret (p, w') ↔
  ∃ c pool brk,
    ObjectPool_Allocate (proxyPool (static_or_new w)) (heapBreak w) = (Some c, pool, brk) ∧
    (tracking = true → c ∉ activeProxySet (static_or_new w)) ∧
    p = Some c ∧
    w' = mkStore
           (Some (mkStaticData pool
                    (if tracking then {[c]} ∪ activeProxySet (static_or_new w)
                     else activeProxySet (static_or_new w))))
           brk.
Proof.
  unfold static_or_new. destruct w as [[sd|] brk0]; unfold_store.
  all: destruct_pool_Allocate c pool brk; simpl.
  all: try (split; [discriminate|intros (? & ? & ? & [=] & _)]).
  all: destruct tracking; simpl.
  all: try (destruct (decide _) as [Hin|Hnin]; simpl).
  all: split;
    [ try discriminate; intros [= <- <-]; exists c, pool, brk; split_and!; done
    | intros (? & ? & ? & [= <- <- <-] & Hfresh & -> & ->); try done ].
  all: by destruct Hfresh.
Qed.

(** [Release] returns exactly when the store exists and, under memory
    tracking, the cell is in the live set. *)
Lemma Release_returns_iff tracking w p w' :
  Release tracking p w = Ret (tt, w') ↔
  ∃ c sd,
    p = Some c ∧ sm_pStaticData w = Some sd ∧
    (tracking = true → c ∈ activeProxySet sd) ∧
    w' = mkStore
           (Some (mkStaticData (ObjectPool_Release (proxyPool sd) c)
                    (if tracking then activeProxySet sd ∖ {[c]} else activeProxySet sd)))
           (heapBreak w).
Proof.
  destruct p as [c|]; [|split; [discriminate|intros (? & ? & [=] & _)]].
  destruct w as [[sd|] brk0]; unfold_store;
    [|split; [discriminate|intros (? & ? & _ & [=] & _)]].
  destruct tracking; simpl.
  - destruct (decide (c ∈ activeProxySet sd)) as [Hin|Hnin]; simpl.
    + split; [intros [= <-]; eauto 10|].
      by intros (? & ? & [= <-] & [= <-] & _ & ->).
    + split; [discriminate|].
      intros (? & ? & [= <-] & [= <-] & Hin & _). by destruct Hnin; apply Hin.
  - split; [intros [= <-]; exists c, sd; by split_and!|].
    by intros (? & ? & [= <-] & [= <-] & _ & ->).
Qed.

(** *** Invariants of the reachable stores *)

Lemma pool_inv_Allocate tracking w p w' :
  Allocate tracking w = Ret (p, w') → pool_inv w → pool_inv w'.
Proof.
  intros (c & pool & brk & Hal & _ & _ & ->)%Allocate_returns_iff Hinv.
  apply ObjectPool_Allocate_cases in Hal as (Hsize & Hcases).
  assert (poolBlockSize (proxyPool (static_or_new w)) = POOL_BLOCK_SIZE ∧
          blocks_below (proxyPool (static_or_new w)) (heapBreak w)) as [Hbs Hbelow].
  { unfold pool_inv, static_or_new in *. destruct (sm_pStaticData w); [done|].
    split; [done|]. intros x Hx. by apply elem_of_nil in Hx. }
  unfold pool_inv; simpl. split; [congruence|].
  intros x (b & Hb & Hx)%elem_of_pool_cells. rewrite Hsize in Hx.
  destruct Hcases as [(? & _ & _ & Hblocks & ->)|[(? & _ & _ & _ & Hblocks & ->)|(_ & _ & -> & ->)]].
  - apply Hbelow, elem_of_pool_cells. rewrite Hblocks in Hb. eauto.
  - rewrite Hblocks in Hb. apply elem_of_cons in Hb as [->|Hb]; [lia|].
    assert (x < heapBreak w)%N; [|lia].
    apply Hbelow, elem_of_pool_cells. eauto.
  - apply Hbelow, elem_of_pool_cells. eauto.
Qed.

Lemma pool_inv_Release tracking w p w' :
  Release tracking p w = Ret (tt, w') → pool_inv w → pool_inv w'.
Proof.
  intros (c & sd & -> & Hsd & _ & ->)%Release_returns_iff.
  unfold pool_inv. rewrite Hsd. simpl. done.
Qed.

Lemma reachable_pool_inv tracking w : reachable tracking w → pool_inv w.
Proof.
  induction 1 as [|w p w' _ IH Hal|w p w' _ IH Hrel|w w' _ IH Hsh].
  - done.
  - by eapply pool_inv_Allocate.
  - by eapply pool_inv_Release.
  - unfold_store. by injection Hsh as <-.
Qed.

Lemma tracked_inv_Allocate w p w' :
  Allocate true w = Ret (p, w') → pool_inv w → tracked_inv w → tracked_inv w'.
Proof.
  intros (c & pool & brk & Hal & Hfresh & _ & ->)%Allocate_returns_iff Hpool Htr.
  specialize (Hfresh eq_refl).
  apply ObjectPool_Allocate_cases in Hal as (Hsize & Hcases).
  set (sd := static_or_new w) in *.
  assert (poolBlockSize (proxyPool sd) = POOL_BLOCK_SIZE ∧
          blocks_below (proxyPool sd) (heapBreak w)) as [Hbs Hbelow].
  { unfold pool_inv, sd, static_or_new in *. destruct (sm_pStaticData w); [done|].
    split; [done|]. intros x Hx. by apply elem_of_nil in Hx. }
  assert (NoDup (poolFree (proxyPool sd)) ∧
          (∀ c, c ∈ poolFree (proxyPool sd) → c ∉ activeProxySet sd) ∧
          (∀ c, c ∈ poolFree (proxyPool sd) → c ∈ pool_cells (proxyPool sd)) ∧
          (∀ c, c ∈ activeProxySet sd → c ∈ pool_cells (proxyPool sd)))
    as (Hnd & Hdisj & Hfree & Hact).
  { unfold tracked_inv, sd, static_or_new in *. destruct (sm_pStaticData w); [done|].
    simpl. split_and!; [constructor|intros ? []%elem_of_nil..|set_solver]. }
  assert (∀ x, x ∈ pool_cells (proxyPool sd) → x ∈ pool_cells pool) as Hmono.
  { intros x (b & Hb & Hx)%elem_of_pool_cells. apply elem_of_pool_cells.
    exists b. rewrite Hsize. split; [|done].
    destruct Hcases as [(? & _ & _ & -> & _)|[(? & _ & _ & _ & -> & _)|(_ & _ & -> & _)]];
      [done|by right|done]. }
  unfold tracked_inv; simpl.
  destruct Hcases as [(c' & [= <-] & Hf & Hblocks & ->)
                     |[(c' & [= <-] & Hf & Hblock & Hblocks & ->)|([=] & _)]].
  - rewrite Hf in Hnd, Hdisj, Hfree. apply NoDup_cons in Hnd as [Hc Hnd].
    split_and!; [done| | |].
    + intros x Hx [->%elem_of_singleton|Hin]%elem_of_union; [done|].
      by apply (Hdisj x); [right|].
    + intros x Hx. apply Hmono, Hfree. by right.
    + intros x [->%elem_of_singleton|Hin]%elem_of_union; apply Hmono; [|by apply Hact].
      apply Hfree. by left.
  - pose proof (NoDup_block_cells (heapBreak w) (poolBlockSize (proxyPool sd))) as Hndb.
    rewrite Hblock in Hndb. apply NoDup_cons in Hndb as [Hc Hndb].
    assert (∀ x, x ∈ c :: poolFree pool → x ∈ pool_cells pool ∧ (heapBreak w ≤ x)%N)
      as Hnew.
    { intros x Hx. rewrite <- Hblock in Hx. apply elem_of_block_cells in Hx.
      split; [|lia]. apply elem_of_pool_cells. exists (heapBreak w).
      rewrite Hblocks, Hsize. split; [by left|done]. }
    split_and!; [done| | |].
    + intros x Hx [->%elem_of_singleton|Hin]%elem_of_union; [done|].
      apply Hact, Hbelow in Hin. destruct (Hnew x) as [_ ?]; [by right|lia].
    + intros x Hx. apply Hnew. by right.
    + intros x [->%elem_of_singleton|Hin]%elem_of_union; [|by apply Hmono, Hact].
      apply Hnew. by left.
Qed.

Lemma tracked_inv_Release w p w' :
  Release true p w = Ret (tt, w') → tracked_inv w → tracked_inv w'.
Proof.
  intros (c & sd & -> & Hsd & Hin & ->)%Release_returns_iff.
  specialize (Hin eq_refl).
  unfold tracked_inv. rewrite Hsd. simpl. intros (Hnd & Hdisj & Hfree & Hact).
  assert (∀ x, x ∈ pool_cells (ObjectPool_Release (proxyPool sd) c) ↔
               x ∈ pool_cells (proxyPool sd)) as Hcells by done.
  split_and!.
  - apply NoDup_cons. split; [|done]. intros Hc. by apply (Hdisj c).
  - intros x [->|Hx]%elem_of_cons.
    + intros [_ Hn]%elem_of_difference. by apply Hn, elem_of_singleton.
    + intros [Hx' _]%elem_of_difference. by apply (Hdisj x).
  - intros x [->|Hx]%elem_of_cons; apply Hcells; [by apply Hact|by apply Hfree].
  - intros x [Hx _]%elem_of_difference. by apply Hcells, Hact.
Qed.

Lemma reachable_tracked_inv w : reachable true w → tracked_inv w.
Proof.
  induction 1 as [|w p w' Hw IH Hal|w p w' _ IH Hrel|w w' _ IH Hsh].
  - done.
  - eapply tracked_inv_Allocate; [done| |done]. by eapply reachable_pool_inv.
  - by eapply tracked_inv_Release.
  - unfold_store. by injection Hsh as <-.
Qed.

(** *** Progress: on a reachable store the calls of a correct client return *)

Lemma Allocate_tracked_returns w :
  reachable true w → ∃ c w', Allocate true w = Ret (Some c, w').
Proof.
  intros Hw. pose proof (reachable_pool_inv _ _ Hw) as Hpool.
  pose proof (reachable_tracked_inv _ Hw) as Htr.
  set (sd := static_or_new w).
  assert (poolBlockSize (proxyPool sd) = POOL_BLOCK_SIZE) as Hbs.
  { unfold pool_inv, sd, static_or_new in *. by destruct (sm_pStaticData w) as [?|]; [apply Hpool|]. }
  destruct (ObjectPool_Allocate_total (proxyPool sd) (heapBreak w))
    as (c & pool & brk & Hal); [by rewrite Hbs|].
  exists c. eexists. apply Allocate_returns_iff. exists c, pool, brk.
  split_and!; [done| |done..].
  intros _ Hin. fold sd in Hin.
  apply ObjectPool_Allocate_cases in Hal as (_ & Hcases).
  unfold pool_inv, tracked_inv, sd, static_or_new in *.
  destruct (sm_pStaticData w) as [sd0|]; [|set_solver].
  destruct Hpool as [_ Hbelow]. destruct Htr as (_ & Hdisj & _ & Hact).
  destruct Hcases as [(c' & [= <-] & Hf & _)|[(c' & [= <-] & _ & Hblock & _)|([=] & _)]].
  - apply (Hdisj c); [|done]. rewrite Hf. by left.
  - assert (c ∈ block_cells (heapBreak w) (poolBlockSize (proxyPool sd0))) as Hc
      by (rewrite Hblock; by left).
    apply elem_of_block_cells in Hc. apply Hact, Hbelow in Hin. lia.
Qed.

Lemma Release_tracked_returns w c :
  c ∈ active w → ∃ w', Release true (Some c) w = Ret (tt, w').
Proof.
  unfold active. destruct (sm_pStaticData w) as [sd|] eqn:Hsd; [|set_solver].
  intros Hin. eexists. apply Release_returns_iff. exists c, sd. done.
Qed.

(** *** The live set and the history of calls *)

(** C5.  With memory tracking enabled, after any sequence of [Allocate] and
    [Release] calls made on the initial store, a cell is in the active proxy
    set if and only if [Allocate] returned it and it was not passed to
    [Release] since; and once a call has been made (the store exists from
    the first [Allocate] on), [GetActiveProxyCount] returns the number of
    cells issued minus the number of cells released, leaving the store as it
    is. *)
Theorem live_set_matches_history calls evs w :
  run true calls initial = Ret (evs, w) →
  (∀ c, c ∈ active w ↔ live_after evs c) ∧
  (calls ≠ [] →
   ∃ n, GetActiveProxyCount w = Ret (n, w) ∧
        Z.of_N n = (Z.of_nat (issued evs) - Z.of_nat (released evs))%Z).
Proof.
  intros Hrun. destruct (run_tracked_from _ _ _ _ Hrun) as (Hlive & Hsize & Hst).
  split.
  - intros c. rewrite Hlive. split; [|by left].
    intros [?|[Hin _]]; [done|]. by apply not_elem_of_empty in Hin.
  - intros Hne. destruct (Hst Hne) as [sd Hsd].
    exists (N.of_nat (size (active w))). split.
    + unfold_store. by rewrite Hsd.
    + change (active initial) with (∅ : gset cell) in Hsize.
      rewrite size_empty in Hsize. lia.
Qed.

Lemma live_set_matches_history_witness :
  ∃ evs w,
    run true [CallAllocate; CallAllocate; CallRelease (Some 0%N)] initial = Ret (evs, w) ∧
    (∀ c, c ∈ active w ↔ live_after evs c) ∧
    ∃ n, GetActiveProxyCount w = Ret (n, w) ∧
         Z.of_N n = (Z.of_nat (issued evs) - Z.of_nat (released evs))%Z.
Proof.
  eexists _, _. split; [vm_compute; reflexivity|].
  match goal with
  | |- (∀ c, c ∈ active ?w ↔ live_after ?evs c) ∧ _ =>
      destruct (live_set_matches_history
                  [CallAllocate; CallAllocate; CallRelease (Some 0%N)] evs w)
        as [Hlive Hcount]
  end.
  - vm_compute. reflexivity.
  - split; [exact Hlive|]. apply Hcount. discriminate.
Defined.

(** *** After [Shutdown] *)

(** C6, as the code has it.  After [Shutdown] has destroyed the static
    data, [sm_pStaticData] is null, and [Release] and the two diagnostic
    queries stop in their assertion that the static data exists.  [Shutdown]
    and [Allocate] have no such assertion and return: a second [Shutdown]
    does nothing, and [Allocate] builds new static data, whose pool carves
    its first block, and returns the first cell of that block; the new
    active set holds that cell and nothing else (nothing, without memory
    tracking).  No call goes on with the destroyed static data. *)
Theorem after_Shutdown_Release_and_queries_trap tracking w :
  ∃ w1, Shutdown w = Ret (tt, w1) ∧
    sm_pStaticData w1 = None ∧
    (∀ p, Release tracking p w1 = Trap) ∧
    GetActiveProxyCount w1 = Trap ∧
    GetFirstActiveProxy w1 = Trap ∧
    Shutdown w1 = Ret (tt, w1) ∧
    ∃ c sd2 brk2,
      Allocate tracking w1 = Ret (Some c, mkStore (Some sd2) brk2) ∧
      poolBlockSize (proxyPool sd2) = POOL_BLOCK_SIZE ∧
      poolBlocks (proxyPool sd2) = [heapBreak w1] ∧
      c :: poolFree (proxyPool sd2) = block_cells (heapBreak w1) POOL_BLOCK_SIZE ∧
      activeProxySet sd2 = (if tracking then {[c]} else ∅).
Proof.
  exists (mkStore None (heapBreak w)).
  split_and!; try done.
  - by intros [c|].
  - destruct (ObjectPool_Allocate_total (proxyPool StaticData_ctor) (heapBreak w))
      as (c & pool & brk & Hal); [done|].
    exists c. eexists. exists brk. split.
    { apply Allocate_returns_iff. exists c, pool, brk. simpl.
      split_and!; [done| |done..]. intros _. apply not_elem_of_empty. }
    apply ObjectPool_Allocate_cases in Hal
      as (Hsize & [(? & _ & [=] & _)|[(c' & [= <-] & _ & Hblock & Hblocks & _)|([=] & _)]]).
    simpl. split_and!; [done|done|exact (eq_sym Hblock)|].
    destruct tracking; [by rewrite union_empty_r_L|done].
Qed.

(** The statement that every call after [Shutdown] stops in an assertion
    fails: on the store [Shutdown] leaves of [after_first_Allocate],
    [Allocate] returns the cell 1024 and a second [Shutdown] returns. *)
Lemma Allocate_after_Shutdown_returns :
  ∃ w1, Shutdown after_first_Allocate = Ret (tt, w1) ∧
    sm_pStaticData w1 = None ∧
    (∃ w2, Allocate true w1 = Ret (Some 1024%N, w2)) ∧
    Shutdown w1 = Ret (tt, w1) ∧
    ¬ (∀ tracking w, sm_pStaticData w = None → Allocate tracking w = Trap).
Proof.
  exists (mkStore None (heapBreak after_first_Allocate)).
  assert (∃ w2, Allocate true (mkStore None (heapBreak after_first_Allocate))
                = Ret (Some 1024%N, w2)) as [w2 Hal].
  { eexists. vm_compute. reflexivity. }
  split_and!; [reflexivity|reflexivity|by exists w2|reflexivity|].
  intros Hclaim.
  rewrite (Hclaim true (mkStore None (heapBreak after_first_Allocate)) eq_refl) in Hal.
  discriminate Hal.
Qed.

End ProxyStoreFacts.


(** ** Properties of the type registry *)

Module TypeFacts.
Import Type_.

Ltac unfold_type :=
  unfold Create, Unregister, Find, Shutdown, SetTypePackage, IsSubtypeOf,
    GameObject_ReleaseStaticType, delete_LookupMap, release_TypePackage,
    LookupMap_Insert, LookupMap_Remove, Type_GetName, GetTypeParent,
    HELIUM_TRACE, call_objects, update_objects, new_Type, read, write in *;
  unfold_monad; simpl in *.

Section Registry.
Context {OS : ObjectSystem}.
Implicit Types (w : World OS) (p : addr) (name : Name).

(** *** Subtype queries *)

Lemma IsSubtypeOf_loop_chain w (A : addr) pThis l :
  parent_chain w pThis l →
  ∀ fuel, length l < fuel →
  IsSubtypeOf_loop fuel pThis A w = Ret (bool_decide (A ∈ l), w).
Proof.
  induction 1 as [|p d l Hd Hchain IH]; intros fuel Hfuel.
  - destruct fuel; [simpl in Hfuel; lia|]. done.
  - destruct fuel as [|fuel]; [simpl in Hfuel; lia|]. simpl in *.
    destruct (decide (p = A)) as [->|Hne].
    + rewrite bool_decide_eq_true_2; [done|by left].
    + unfold_type. rewrite Hd. rewrite IH by lia.
      do 2 f_equal. apply bool_decide_ext. rewrite elem_of_cons.
      split; [by right|]. by intros [->|?].
Qed.

(** C1.  [T.IsSubtypeOf( T )] is true for every type [T].  For a type [T]
    with a finite parent chain [l] (which starts with [T]) and a non-null
    [A], [T.IsSubtypeOf( A )] returns, given fuel for one iteration more than
    the chain is long, and the result is true exactly when [A] is one of the
    nodes of the chain.  On a chain [A], [B], [C] of three descriptors that
    ends in the null parent, [A.IsSubtypeOf( C )] is true and
    [C.IsSubtypeOf( A )] is false.  The query changes nothing. *)
Theorem IsSubtypeOf_walks_parent_chain w :
  (∀ T fuel, IsSubtypeOf (S fuel) T (Some T) w = Ret (true, w)) ∧
  (∀ T A l fuel,
     parent_chain w (Some T) l → length l < fuel →
     IsSubtypeOf fuel T (Some A) w = Ret (bool_decide (A ∈ l), w)) ∧
  (∀ A B C dA dB dC fuel,
     types w !! A = Some dA → m_spTypeParent dA = Some B →
     types w !! B = Some dB → m_spTypeParent dB = Some C →
     types w !! C = Some dC → m_spTypeParent dC = None →
     3 < fuel →
     IsSubtypeOf fuel A (Some C) w = Ret (true, w) ∧
     IsSubtypeOf fuel C (Some A) w = Ret (false, w)).
Proof.
  split_and!.
  - intros T fuel. unfold_type. by rewrite decide_True.
  - intros T A l fuel Hchain Hfuel. unfold IsSubtypeOf. unfold_monad. simpl.
    by apply IsSubtypeOf_loop_chain.
  - intros A B C dA dB dC fuel HA HAB HB HBC HC HCroot Hfuel.
    assert (parent_chain w (Some C) [C]) as HchainC.
    { eapply chain_node; [done|]. rewrite HCroot. constructor. }
    assert (parent_chain w (Some A) [A; B; C]) as HchainA.
    { eapply chain_node; [done|]. rewrite HAB.
      eapply chain_node; [done|]. by rewrite HBC. }
    assert (A ≠ C) as Hne by (intros ->; congruence).
    unfold IsSubtypeOf. unfold_monad. simpl.
    rewrite (IsSubtypeOf_loop_chain w C _ _ HchainA) by (simpl; lia).
    rewrite (IsSubtypeOf_loop_chain w A _ _ HchainC) by (simpl; lia).
    split; do 2 f_equal.
    + apply bool_decide_eq_true_2. do 2 right. by left.
    + apply bool_decide_eq_false_2. by intros [?|[]%elem_of_nil]%elem_of_cons.
Qed.

(** *** [Create], case by case *)

Lemma fresh_type_not_live w : types w !! fresh (dom (types w)) = None.
Proof. apply not_elem_of_dom, is_fresh. Qed.

(** With a name that is not empty, a package and a template, [Create] fails
    with the step on the template that fails, stops in the assertion on the
    insertion when the steps succeed and the name is taken, and registers a
    new descriptor otherwise. *)
Lemma Create_cases name pkg pParent tmpl flags w :
  Name_IsEmpty name = false →
  Create name (Some pkg) pParent (Some tmpl) flags w =
  match template_steps tmpl pkg name (objects w) with
  | (Some s, o) => Ret (None, failed_world name s o w)
  | (None, o) =>
      match registry w !! name with
      | Some _ => Trap
      | None => Ret (Some (fresh (dom (types w))),
                     created_world name pParent tmpl flags o w)
      end
  end.
Proof.
  intros Hname. destruct w as [ty m pk st o tr].
  unfold template_steps, after_RegisterObject, after_SetName, after_SetOwner,
    failed_world, created_world, registry, add_trace, set_objects.
  unfold_type. rewrite Hname. simpl.
  destruct (SetOwner tmpl pkg o) as [[] o1]; simpl; [|done].
  destruct (SetName tmpl name o1) as [[] o2]; simpl; [|done].
  destruct (RegisterObject tmpl (SetFlags tmpl FLAG_DEFAULT_TEMPLATE o2)) as [[] o4];
    simpl; [|done].
  repeat (rewrite ?lookup_insert_eq, ?insert_insert_eq; simpl).
  destruct m as [m|]; simpl.
  - repeat (rewrite ?lookup_insert_eq, ?insert_insert_eq; simpl).
    destruct (m !! name); simpl; [done|].
    cbv [set_LookupMap set_types set_objects types sm_pLookupMap sm_spTypePackage
           sm_spStaticType objects traceLog].
    by rewrite !insert_insert_eq.
  - repeat (rewrite ?lookup_insert_eq, ?insert_insert_eq; simpl).
    rewrite lookup_empty. simpl.
    cbv [set_LookupMap set_types set_objects types sm_pLookupMap sm_spTypePackage
           sm_spStaticType objects traceLog].
    by rewrite !insert_insert_eq.
Qed.

Lemma Create_asserts name pPkg pParent pTmpl flags w :
  Name_IsEmpty name = true ∨ pPkg = None ∨ pTmpl = None →
  Create name pPkg pParent pTmpl flags w = Trap.
Proof.
  unfold_type. destruct (Name_IsEmpty name); simpl; [done|].
  destruct pPkg, pTmpl; simpl; try done. by intros [?|[?|?]].
Qed.

(** Whatever its arguments, [Create] returns or stops in an assertion; when
    it returns, the name is not empty and package and template are there. *)
Lemma Create_returns_inv name pPkg pParent pTmpl flags w r w' :
  Create name pPkg pParent pTmpl flags w = Ret (r, w') →
  Name_IsEmpty name = false ∧ ∃ pkg tmpl, pPkg = Some pkg ∧ pTmpl = Some tmpl.
Proof.
  intros Hc. destruct (Name_IsEmpty name) eqn:Hname.
  { rewrite Create_asserts in Hc by auto. done. }
  destruct pPkg as [pkg|]; [|rewrite Create_asserts in Hc by auto; done].
  destruct pTmpl as [tmpl|]; [|rewrite Create_asserts in Hc by auto; done].
  eauto.
Qed.

Lemma Find_registry n w :
  Find n w = match registry w !! n with
             | Some (Some p) => Ret (Some p, w)
             | Some None => Trap
             | None => Ret (None, w)
             end.
Proof.
  unfold registry. unfold_type. destruct (sm_pLookupMap w) as [m|]; simpl.
  - by destruct (m !! n) as [[p|]|].
  - by rewrite lookup_empty.
Qed.

(** [Unregister] on a live descriptor, case by case. *)
Lemma Unregister_cases p d w :
  types w !! p = Some d →
  Unregister (Some p) w =
  match sm_pLookupMap w with
  | None => Trap
  | Some m =>
      match m !! m_name d with
      | None => Trap
      | Some _ => Ret (tt, unregistered_world p d m w)
      end
  end.
Proof.
  intros Hd. destruct w as [ty m pk st o tr]. simpl in Hd.
  unfold unregistered_world. unfold_type.
  destruct m as [m|]; simpl; [|done]. rewrite Hd. simpl.
  destruct (m !! m_name d); simpl; [|done]. rewrite Hd. simpl.
  rewrite lookup_insert_eq. simpl.
  unfold set_types, set_LookupMap. simpl. by rewrite insert_insert_eq.
Qed.

Lemma Unregister_returns_inv pType w w' :
  Unregister pType w = Ret (tt, w') →
  ∃ p d m, pType = Some p ∧ types w !! p = Some d ∧ sm_pLookupMap w = Some m ∧
           is_Some (m !! m_name d) ∧ w' = unregistered_world p d m w.
Proof.
  destruct pType as [p|]; [|discriminate].
  destruct (types w !! p) as [d|] eqn:Hd.
  - rewrite (Unregister_cases p d w Hd).
    destruct (sm_pLookupMap w) as [m|]; [|discriminate].
    destruct (m !! m_name d) eqn:Hm; [|discriminate].
    intros [= <-]. exists p, d, m. by rewrite Hm.
  - unfold_type. destruct (sm_pLookupMap w); simpl; [|discriminate].
    by rewrite Hd.
Qed.

(** *** The failures of [Create] *)

(** C2.  [Create] returns the null pointer only when a step on the template
    object fails (setting its owner, setting its name, or registering it),
    and then it has logged one error whose format names the step and whose
    argument is the type name.  Given a name that is not empty, a package
    and a template, it does return null whenever one of the steps fails.
    When it returns a descriptor, the descriptor carries the name, parent,
    template and flags given and nothing was logged; and it returns one
    whenever no step fails and the name is free. *)
Theorem Create_fails_on_template_steps_only name pPkg pParent pTmpl flags w :
  (∀ w', Create name pPkg pParent pTmpl flags w = Ret (None, w') →
     ∃ pkg tmpl s o,
       pPkg = Some pkg ∧ pTmpl = Some tmpl ∧
       template_steps tmpl pkg name (objects w) = (Some s, o) ∧
       traceLog w' = traceLog w ++ [mkTrace TRACE_ERROR (step_format s) [name]]) ∧
  (∀ pkg tmpl s o,
     Name_IsEmpty name = false → pPkg = Some pkg → pTmpl = Some tmpl →
     template_steps tmpl pkg name (objects w) = (Some s, o) →
     ∃ w', Create name pPkg pParent pTmpl flags w = Ret (None, w') ∧
           traceLog w' = traceLog w ++ [mkTrace TRACE_ERROR (step_format s) [name]]) ∧
  (∀ p w', Create name pPkg pParent pTmpl flags w = Ret (Some p, w') →
     types w' !! p = Some (mkType name pParent pTmpl flags) ∧
     traceLog w' = traceLog w) ∧
  (∀ pkg tmpl o,
     Name_IsEmpty name = false → pPkg = Some pkg → pTmpl = Some tmpl →
     template_steps tmpl pkg name (objects w) = (None, o) →
     registry w !! name = None →
     ∃ p w', Create name pPkg pParent pTmpl flags w = Ret (Some p, w')).
Proof.
  split_and!.
  - intros w' Hc.
    destruct (Create_returns_inv _ _ _ _ _ _ _ _ Hc) as (Hname & pkg & tmpl & -> & ->).
    rewrite Create_cases in Hc by done.
    destruct (template_steps tmpl pkg name (objects w)) as [[s|] o] eqn:Hsteps.
    + injection Hc as <-. by exists pkg, tmpl, s, o.
    + by destruct (registry w !! name).
  - intros pkg tmpl s o Hname -> -> Hsteps.
    rewrite Create_cases, Hsteps by done. by eexists.
  - intros p w' Hc.
    destruct (Create_returns_inv _ _ _ _ _ _ _ _ Hc) as (Hname & pkg & tmpl & -> & ->).
    rewrite Create_cases in Hc by done.
    destruct (template_steps tmpl pkg name (objects w)) as [[s|] o]; [done|].
    destruct (registry w !! name); [done|].
    injection Hc as <- <-. simpl. by rewrite lookup_insert_eq.
  - intros pkg tmpl o Hname -> -> Hsteps Hfree.
    rewrite Create_cases, Hsteps, Hfree by done. by eexists _, _.
Qed.

(** C3.  When [Create] returns the null pointer, the heap of descriptors,
    the lookup map and the other statics of the registry are what they were
    before the call, and [Find] answers every name as it did before. *)
Theorem Create_failure_leaves_registry name pPkg pParent pTmpl flags w w' :
  Create name pPkg pParent pTmpl flags w = Ret (None, w') →
  types w' = types w ∧
  sm_pLookupMap w' = sm_pLookupMap w ∧
  sm_spTypePackage w' = sm_spTypePackage w ∧
  sm_spStaticType w' = sm_spStaticType w ∧
  ∀ n, result (Find n w') = result (Find n w).
Proof.
  intros Hc.
  destruct (Create_returns_inv _ _ _ _ _ _ _ _ Hc) as (Hname & pkg & tmpl & -> & ->).
  rewrite Create_cases in Hc by done.
  destruct (template_steps tmpl pkg name (objects w)) as [[s|] o].
  - injection Hc as <-. split_and!; try done.
    intros n. rewrite !Find_registry.
    change (registry (failed_world name s o w)) with (registry w).
    by destruct (registry w !! n) as [[?|]|].
  - by destruct (registry w !! name).
Qed.

(** *** Lookup *)

Lemma registry_later n v w w' :
  later n w w' → registry w !! n = Some v → registry w' !! n = Some v.
Proof.
  induction 1 as [w|w w1 w2 name pPkg pParent pTmpl flags r _ IH Hc
                 |w w1 w2 p d _ IH Hd Hne Hun]; intros Hn; [done|..].
  - specialize (IH Hn).
    destruct (Create_returns_inv _ _ _ _ _ _ _ _ Hc) as (Hname & pkg & tmpl & -> & ->).
    rewrite Create_cases in Hc by done.
    destruct (template_steps tmpl pkg name (objects w1)) as [[s|] o].
    + by injection Hc as <- <-.
    + destruct (registry w1 !! name) eqn:Hfree; [done|].
      injection Hc as <- <-. unfold registry at 1, created_world. simpl.
      rewrite lookup_insert_ne; [done|]. intros ->. congruence.
  - specialize (IH Hn).
    apply Unregister_returns_inv in Hun as (p' & d' & m & [= <-] & Hd' & Hm & _ & ->).
    assert (d' = d) as -> by congruence.
    unfold registry in *. rewrite Hm in IH. simpl.
    by rewrite lookup_delete_ne.
Qed.

Lemma GameObject_ReleaseStaticType_cases w :
  GameObject_ReleaseStaticType w =
  match sm_spStaticType w with
  | None => Ret (tt, w)
  | Some p =>
      match Unregister (Some p) w with
      | Ret (_, w1) => Ret (tt, set_StaticType None w1)
      | Trap => Trap
      | Undefined => Undefined
      | OutOfFuel => OutOfFuel
      end
  end.
Proof.
  unfold GameObject_ReleaseStaticType. unfold_monad. simpl.
  destruct (sm_spStaticType w) as [p|]; [|done].
  by destruct (Unregister (Some p) w) as [[[] w1]| | |].
Qed.

(** The run of [Shutdown_steps]: the journal has the three releases in the
    order of the source, each with the world it left. *)
Lemma Shutdown_steps_cases w :
  Shutdown_steps (w, []) =
  match GameObject_ReleaseStaticType
          (add_trace (mkTrace TRACE_INFO fmt_shutdown_begin []) w) with
  | Ret (_, w1) =>
      Ret (tt, (add_trace (mkTrace TRACE_INFO fmt_shutdown_end [])
                  (set_TypePackage None (set_LookupMap None w1)),
                [(StepReleaseStaticType, w1);
                 (StepDeleteLookupMap, set_LookupMap None w1);
                 (StepReleaseTypePackage, set_TypePackage None (set_LookupMap None w1))]))
  | Trap => Trap
  | Undefined => Undefined
  | OutOfFuel => OutOfFuel
  end.
Proof.
  unfold Shutdown_steps, journaled, unjournaled, delete_LookupMap,
    release_TypePackage, HELIUM_TRACE.
  unfold_monad. cbn [fst snd].
  by destruct (GameObject_ReleaseStaticType _) as [[[] w1]| | |].
Qed.

Lemma Shutdown_cases w :
  Shutdown w =
  match GameObject_ReleaseStaticType
          (add_trace (mkTrace TRACE_INFO fmt_shutdown_begin []) w) with
  | Ret (_, w1) =>
      Ret (tt, add_trace (mkTrace TRACE_INFO fmt_shutdown_end [])
                 (set_TypePackage None (set_LookupMap None w1)))
  | Trap => Trap
  | Undefined => Undefined
  | OutOfFuel => OutOfFuel
  end.
Proof.
  unfold Shutdown. rewrite Shutdown_steps_cases.
  by destruct (GameObject_ReleaseStaticType _) as [[[] w1]| | |].
Qed.

Lemma ReleaseStaticType_clears w w1 :
  GameObject_ReleaseStaticType w = Ret (tt, w1) → sm_spStaticType w1 = None.
Proof.
  rewrite GameObject_ReleaseStaticType_cases.
  destruct (sm_spStaticType w) as [p|] eqn:Hst; [|by intros [= <-]].
  destruct (Unregister (Some p) w) as [[[] w2]| | |]; try done. by intros [= <-].
Qed.

(** C4.  After [Create] has returned a descriptor for a name, and whatever
    calls of [Create], and of [Unregister] on descriptors of other names,
    have followed, [Find] returns that descriptor for the name.  [Find]
    returns the null pointer for a name that has no entry: in a populated
    registry, before the map was ever created, and for every name after
    [Shutdown]; it never stops in an assertion there. *)
Theorem Find_after_Create_and_when_absent :
  (∀ n pPkg pParent pTmpl flags w p w1 w2,
     Create n pPkg pParent pTmpl flags w = Ret (Some p, w1) →
     later n w1 w2 →
     Find n w2 = Ret (Some p, w2)) ∧
  (∀ n w, registry w !! n = None → Find n w = Ret (None, w)) ∧
  (∀ n w, sm_pLookupMap w = None → Find n w = Ret (None, w)) ∧
  (∀ n w w', Shutdown w = Ret (tt, w') → Find n w' = Ret (None, w')).
Proof.
  split_and!.
  - intros n pPkg pParent pTmpl flags w p w1 w2 Hc Hlater.
    assert (registry w1 !! n = Some (Some p)) as Hn.
    { destruct (Create_returns_inv _ _ _ _ _ _ _ _ Hc) as (Hname & pkg & tmpl & -> & ->).
      rewrite Create_cases in Hc by done.
      destruct (template_steps tmpl pkg n (objects w)) as [[s|] o]; [done|].
      destruct (registry w !! n); [done|].
      injection Hc as <- <-. unfold registry at 1, created_world. simpl.
      by rewrite lookup_insert_eq. }
    rewrite Find_registry. by rewrite (registry_later _ _ _ _ Hlater Hn).
  - intros n w Hn. by rewrite Find_registry, Hn.
  - intros n w Hmap. rewrite Find_registry. unfold registry. rewrite Hmap.
    by rewrite lookup_empty.
  - intros n w w' Hsh. rewrite Shutdown_cases in Hsh.
    destruct (GameObject_ReleaseStaticType _) as [[[] w1]| | |]; try done.
    injection Hsh as <-. rewrite Find_registry. unfold registry. simpl.
    by rewrite lookup_empty.
Qed.

(** *** Duplicate names and the assertions of [Create] *)

(** C7, as the code has it.  Whatever the registry holds, [Create] stops in
    an assertion when the name is empty, the package is null or the template
    is null.  With a name that is not empty, a package and a template, and
    the name already in the registry: [Create] stops in the assertion on the
    insertion when the three steps on the template object succeed; it
    returns the null pointer, leaving map and descriptors as they were, when
    one of the steps fails.  So a call with a registered name never returns
    a descriptor, and the entry is neither replaced nor duplicated. *)
Theorem Create_duplicate_name_is_refused name pPkg pParent pTmpl flags w :
  (Name_IsEmpty name = true ∨ pPkg = None ∨ pTmpl = None →
     Create name pPkg pParent pTmpl flags w = Trap) ∧
  (is_Some (registry w !! name) →
     (∀ pkg tmpl o,
        Name_IsEmpty name = false → pPkg = Some pkg → pTmpl = Some tmpl →
        template_steps tmpl pkg name (objects w) = (None, o) →
        Create name pPkg pParent pTmpl flags w = Trap) ∧
     (∀ pkg tmpl s o,
        Name_IsEmpty name = false → pPkg = Some pkg → pTmpl = Some tmpl →
        template_steps tmpl pkg name (objects w) = (Some s, o) →
        ∃ w', Create name pPkg pParent pTmpl flags w = Ret (None, w') ∧
              sm_pLookupMap w' = sm_pLookupMap w ∧ types w' = types w) ∧
     (∀ r w', Create name pPkg pParent pTmpl flags w = Ret (r, w') →
        r = None ∧ sm_pLookupMap w' = sm_pLookupMap w ∧ types w' = types w)).
Proof.
  split; [apply Create_asserts|].
  intros [v Hdup]. split_and!.
  - intros pkg tmpl o Hname -> -> Hsteps.
    by rewrite Create_cases, Hsteps, Hdup.
  - intros pkg tmpl s o Hname -> -> Hsteps.
    rewrite Create_cases, Hsteps by done. by eexists.
  - intros r w' Hc.
    destruct (Create_returns_inv _ _ _ _ _ _ _ _ Hc) as (Hname & pkg & tmpl & -> & ->).
    rewrite Create_cases, Hdup in Hc by done.
    destruct (template_steps tmpl pkg name (objects w)) as [[s|] o]; [|done].
    by injection Hc as <- <-.
Qed.

(** *** [Unregister] *)

(** C8.  [Unregister] called on a live descriptor whose name has an entry
    in the registry returns.  Afterwards [Find] returns the null pointer for
    that name, the parent and template references of the descriptor are
    null, every other name has the entry it had and [Find] answers it as
    before, and every other descriptor is as it was. *)
Theorem Unregister_removes_its_entry_only p d w :
  types w !! p = Some d →
  is_Some (registry w !! m_name d) →
  ∃ w', Unregister (Some p) w = Ret (tt, w') ∧
    Find (m_name d) w' = Ret (None, w') ∧
    types w' !! p = Some (mkType (m_name d) None None (m_typeFlags d)) ∧
    (∀ n, n ≠ m_name d →
          registry w' !! n = registry w !! n ∧
          result (Find n w') = result (Find n w)) ∧
    (∀ q, q ≠ p → types w' !! q = types w !! q) ∧
    sm_spTypePackage w' = sm_spTypePackage w ∧
    sm_spStaticType w' = sm_spStaticType w ∧
    objects w' = objects w.
Proof.
  intros Hd [v Hv]. rewrite (Unregister_cases p d w Hd).
  unfold registry in Hv. destruct (sm_pLookupMap w) as [m|] eqn:Hm;
    [|by rewrite lookup_empty in Hv].
  rewrite Hv. eexists. split; [done|].
  assert (∀ n, registry (unregistered_world p d m w) !! n = delete (m_name d) m !! n)
    as Hreg by done.
  split_and!; try done.
  - by rewrite Find_registry, Hreg, lookup_delete_eq.
  - simpl. by rewrite lookup_insert_eq.
  - intros n Hn.
    assert (registry (unregistered_world p d m w) !! n = registry w !! n) as Heq.
    { rewrite Hreg. unfold registry. rewrite Hm. by rewrite lookup_delete_ne. }
    split; [done|]. rewrite !Find_registry, Heq.
    by destruct (registry w !! n) as [[?|]|].
  - intros q Hq. simpl. by rewrite lookup_insert_ne.
Qed.

(** *** [Shutdown] *)

Lemma ReleaseStaticType_keeps w w1 :
  GameObject_ReleaseStaticType w = Ret (tt, w1) →
  sm_spTypePackage w1 = sm_spTypePackage w ∧
  (sm_pLookupMap w1 = None ↔ sm_pLookupMap w = None).
Proof.
  rewrite GameObject_ReleaseStaticType_cases.
  destruct (sm_spStaticType w) as [p|]; [|by intros [= <-]].
  destruct (Unregister (Some p) w) as [[[] w2]| | |] eqn:Hun; try done.
  intros [= <-].
  apply Unregister_returns_inv in Hun as (p' & d & m & _ & _ & Hm & _ & ->).
  simpl. rewrite Hm. done.
Qed.

Lemma ReleaseStaticType_returns w :
  sm_spStaticType w = None ∨
  (∃ p d, sm_spStaticType w = Some p ∧ types w !! p = Some d ∧
          is_Some (registry w !! m_name d)) →
  ∃ w1, GameObject_ReleaseStaticType w = Ret (tt, w1).
Proof.
  rewrite GameObject_ReleaseStaticType_cases.
  intros [->|(p & d & -> & Hd & [v Hv])]; [by eexists|].
  rewrite (Unregister_cases p d w Hd).
  unfold registry in Hv. destruct (sm_pLookupMap w) as [m|];
    [|by rewrite lookup_empty in Hv].
  rewrite Hv. by eexists.
Qed.

(** C9.  [Shutdown] returns when no root type is held and when the root
    type held is a live descriptor whose name is registered: the lookup map
    is still there when the root type is unregistered.  A [Shutdown] that
    returns has completed its three releases in this order, as its journal
    shows: the unregistration of the root type, which leaves the type
    package and the existence of the lookup map as they were; then the
    destruction of the lookup map, which leaves the map null and the type
    package still held; then the release of the type package.  Map, package
    and root type are null afterwards.  A second [Shutdown] returns as well
    and leaves descriptors, statics and object system as the first left
    them: it only logs its two messages again. *)
Theorem Shutdown_order_and_second_call w :
  (sm_spStaticType w = None ∨
   (∃ p d, sm_spStaticType w = Some p ∧ types w !! p = Some d ∧
           is_Some (registry w !! m_name d)) →
   ∃ w', Shutdown w = Ret (tt, w')) ∧
  (∀ w', Shutdown w = Ret (tt, w') →
     (∃ w1 w2 w3,
        Shutdown_steps (w, []) =
          Ret (tt, (w', [(StepReleaseStaticType, w1);
                         (StepDeleteLookupMap, w2);
                         (StepReleaseTypePackage, w3)])) ∧
        GameObject_ReleaseStaticType
          (add_trace (mkTrace TRACE_INFO fmt_shutdown_begin []) w) = Ret (tt, w1) ∧
        sm_spTypePackage w1 = sm_spTypePackage w ∧
        (sm_pLookupMap w1 = None ↔ sm_pLookupMap w = None) ∧
        w2 = set_LookupMap None w1 ∧
        sm_pLookupMap w2 = None ∧
        sm_spTypePackage w2 = sm_spTypePackage w ∧
        w3 = set_TypePackage None w2 ∧
        sm_spTypePackage w3 = None ∧
        w' = add_trace (mkTrace TRACE_INFO fmt_shutdown_end []) w3) ∧
     (∀ p, sm_spStaticType w = Some p →
        ∃ d m, types w !! p = Some d ∧ sm_pLookupMap w = Some m ∧
               is_Some (m !! m_name d) ∧
               types w' !! p = Some (mkType (m_name d) None None (m_typeFlags d))) ∧
     sm_pLookupMap w' = None ∧
     sm_spTypePackage w' = None ∧
     sm_spStaticType w' = None ∧
     ∃ w'', Shutdown w' = Ret (tt, w'') ∧
       type_state w'' = type_state w' ∧
       objects w'' = objects w' ∧
       traceLog w'' = traceLog w' ++ [mkTrace TRACE_INFO fmt_shutdown_begin [];
                                      mkTrace TRACE_INFO fmt_shutdown_end []]).
Proof.
  split.
  - intros Hroot. rewrite Shutdown_cases.
    destruct (ReleaseStaticType_returns
                (add_trace (mkTrace TRACE_INFO fmt_shutdown_begin []) w))
      as [w1 ->]; [exact Hroot|]. by eexists.
  - intros w' Hsh. rewrite Shutdown_cases in Hsh.
    pose proof (Shutdown_steps_cases w) as Hsteps.
    destruct (GameObject_ReleaseStaticType _) as [[[] w1]| | |] eqn:Hrel; try done.
    injection Hsh as <-.
    pose proof (ReleaseStaticType_clears _ _ Hrel) as Hst.
    destruct (ReleaseStaticType_keeps _ _ Hrel) as [Hpkg Hmap].
    split_and!; try done.
    + exists w1, (set_LookupMap None w1), (set_TypePackage None (set_LookupMap None w1)).
      split_and!; done.
    + intros p Hp. rewrite GameObject_ReleaseStaticType_cases in Hrel.
      simpl in Hrel. rewrite Hp in Hrel.
      destruct (Unregister _ _) as [[[] w2]| | |] eqn:Hun; try done.
      injection Hrel as <-.
      apply Unregister_returns_inv in Hun
        as (p' & d & m & [= <-] & Hd & Hm & Hin & ->).
      exists d, m. split_and!; try done. simpl. by rewrite lookup_insert_eq.
    + eexists. split.
      * rewrite Shutdown_cases, GameObject_ReleaseStaticType_cases. simpl.
        rewrite Hst. done.
      * split_and!; try done. simpl. by rewrite <- !app_assoc.
Qed.

(** *** What a failed [Create] leaves of the template object *)

Lemma lor_land_absorb (a f : N) : N.land (N.lor a f) f = f.
Proof.
  apply N.bits_inj. intros i. rewrite N.land_spec, N.lor_spec.
  by destruct (N.testbit a i), (N.testbit f i).
Qed.

(** C10.  In an object system whose setters set their attribute and whose
    operations keep the attributes set before, a [Create] that returns the
    null pointer leaves descriptors and statics of the registry as they
    were, and leaves the object system in the state the failing step left,
    undoing nothing: after a failure to set the name the template is owned
    by the package; after a failure to register it, it is owned by the
    package, carries the type name and has the default-template flag set. *)
Theorem Create_failure_keeps_template_changes
    (laws : ObjectSystemLaws OS) name pkg pParent tmpl flags w w' :
  Create name (Some pkg) pParent (Some tmpl) flags w = Ret (None, w') →
  type_state w' = type_state w ∧
  ( ((after_SetOwner tmpl pkg (objects w)).1 = false ∧
     objects w' = (after_SetOwner tmpl pkg (objects w)).2)
  ∨ ((after_SetOwner tmpl pkg (objects w)).1 = true ∧
     (after_SetName tmpl pkg name (objects w)).1 = false ∧
     objects w' = (after_SetName tmpl pkg name (objects w)).2 ∧
     GetOwner (objects w') tmpl = Some pkg)
  ∨ ((after_SetOwner tmpl pkg (objects w)).1 = true ∧
     (after_SetName tmpl pkg name (objects w)).1 = true ∧
     (after_RegisterObject tmpl pkg name (objects w)).1 = false ∧
     objects w' = (after_RegisterObject tmpl pkg name (objects w)).2 ∧
     GetOwner (objects w') tmpl = Some pkg ∧
     GetName (objects w') tmpl = name ∧
     N.land (GetFlags (objects w') tmpl) FLAG_DEFAULT_TEMPLATE = FLAG_DEFAULT_TEMPLATE) ).
Proof.
  intros Hc.
  destruct (Create_returns_inv _ _ _ _ _ _ _ _ Hc) as (Hname & _).
  rewrite Create_cases in Hc by done.
  unfold template_steps in Hc.
  unfold after_RegisterObject, after_SetName, after_SetOwner in *.
  destruct (SetOwner tmpl pkg (objects w)) as [ok1 o1] eqn:H1; simpl in *.
  destruct ok1; simpl in *; [|injection Hc as <-; split; [done|by left]].
  destruct (SetName tmpl name o1) as [ok2 o2] eqn:H2; simpl in *.
  pose proof (SetOwner_sets _ _ _ _ H1) as Hown1.
  destruct (SetName_sets _ _ _ _ _ H2) as [Hown2 Hnm2].
  destruct ok2; simpl in *.
  2:{ injection Hc as <-. split; [done|]. right; left. simpl.
      split_and!; try done. congruence. }
  destruct (SetFlags_sets tmpl name FLAG_DEFAULT_TEMPLATE o1 o2 H2)
    as (Hown3 & Hnm3 & Hfl3).
  destruct (RegisterObject tmpl (SetFlags tmpl FLAG_DEFAULT_TEMPLATE o2))
    as [ok3 o4] eqn:H3; simpl in *.
  destruct (RegisterObject_keeps _ _ _ _ H3) as (Hown4 & Hnm4 & Hfl4).
  destruct ok3; simpl in *.
  { by destruct (registry w !! name). }
  injection Hc as <-. split; [done|]. right; right. simpl.
  split_and!; try done.
  - congruence.
  - rewrite Hnm4, Hnm3. by apply Hnm2.
  - rewrite Hfl4, Hfl3. apply lor_land_absorb.
Qed.

End Registry.

End TypeFacts.


(** ** The results at work on the reference object system *)

Module SampleFacts.
Import Type_ SampleObjects TypeFacts.

#[global] Instance sample_laws : ObjectSystemLaws sample.
Proof.
  split; simpl.
  - intros t pkg o o'. unfold sample_SetOwner, sample_GetOwner.
    destruct (o !! t) as [g|] eqn:Hg; [|discriminate].
    destruct (o !! pkg) eqn:Hpkg; [|discriminate].
    intros [= <-]. by rewrite lookup_insert_eq.
  - intros t n o b o'. unfold sample_SetName, sample_GetOwner, sample_GetName.
    destruct (o !! t) as [g|] eqn:Hg.
    + destruct (sibling_named o t (objOwner g) n).
      * intros [= <- <-]. by rewrite Hg.
      * intros [= <- <-]. by rewrite lookup_insert_eq.
    + intros [= <- <-]. by rewrite Hg.
  - intros t n f o0 o.
    unfold sample_SetName, sample_SetFlags, sample_GetOwner, sample_GetName,
      sample_GetFlags.
    destruct (o0 !! t) as [g|] eqn:Hg; [|discriminate].
    destruct (sibling_named o0 t (objOwner g) n); [discriminate|].
    intros [= <-]. by rewrite !lookup_insert_eq.
  - intros t o b o'.
    unfold sample_RegisterObject, sample_GetOwner, sample_GetName, sample_GetFlags.
    destruct (o !! t) as [g|] eqn:Hg; [|by intros [= <- <-]; rewrite Hg].
    destruct (objRegistered g).
    + intros [= <- <-]. by rewrite Hg.
    + intros [= <- <-]. by rewrite lookup_insert_eq.
Qed.

(** Subtype queries on [Object], [Actor], [Player]. *)
Lemma IsSubtypeOf_walks_parent_chain_witness :
  IsSubtypeOf 4 3%positive (Some 1%positive) world_scenario = Ret (true, world_scenario) ∧
  IsSubtypeOf 4 1%positive (Some 3%positive) world_scenario = Ret (false, world_scenario).
Proof.
  destruct (IsSubtypeOf_walks_parent_chain world_scenario) as (_ & _ & Hchain).
  apply (Hchain 3%positive 2%positive 1%positive
           (mkType "Player" (Some 2%positive) (Some 4%positive) 0)
           (mkType "Actor" (Some 1%positive) (Some 3%positive) 0)
           (mkType "Object" None (Some 2%positive) 0) 4).
  all: first [vm_compute; reflexivity | lia].
Defined.

(** The name [Foo] is taken by a sibling of the template at 3: [Create]
    fails in its second step and says so. *)
Lemma Create_fails_on_template_steps_only_witness :
  ∃ w', Create "Foo" (Some 1%positive) None (Some 3%positive) 0 world_Foo = Ret (None, w') ∧
    ∃ pkg tmpl s o,
      Some 1%positive = Some pkg ∧ Some 3%positive = Some tmpl ∧
      template_steps tmpl pkg "Foo" (objects world_Foo) = (Some s, o) ∧
      traceLog w' = traceLog world_Foo ++ [mkTrace TRACE_ERROR (step_format s) ["Foo"]].
Proof.
  eexists. split; [vm_compute; reflexivity|].
  destruct (Create_fails_on_template_steps_only
              "Foo" (Some 1%positive) None (Some 3%positive) 0 world_Foo) as (Honly & _).
  apply Honly. vm_compute. reflexivity.
Defined.

Lemma Create_failure_leaves_registry_witness :
  ∃ w', Create "Foo" (Some 1%positive) None (Some 3%positive) 0 world_Foo = Ret (None, w') ∧
    types w' = types world_Foo ∧
    sm_pLookupMap w' = sm_pLookupMap world_Foo ∧
    sm_spTypePackage w' = sm_spTypePackage world_Foo ∧
    sm_spStaticType w' = sm_spStaticType world_Foo ∧
    ∀ n, result (Find n w') = result (Find n world_Foo).
Proof.
  eexists. split; [vm_compute; reflexivity|].
  apply (Create_failure_leaves_registry
           "Foo" (Some 1%positive) None (Some 3%positive) 0 world_Foo).
  vm_compute. reflexivity.
Defined.

Lemma Find_after_Create_and_when_absent_witness :
  Find "Foo" world_Foo = Ret (Some 1%positive, world_Foo) ∧
  Find "Missing" world_Foo = Ret (None, world_Foo) ∧
  Find "Missing" world0 = Ret (None, world0).
Proof.
  destruct (@Find_after_Create_and_when_absent sample)
    as (Hfound & Habsent & Hnomap & _).
  split_and!.
  - apply (Hfound "Foo" (Some 1%positive) None (Some 2%positive) 0%N world0
             1%positive world_Foo world_Foo).
    + vm_compute. reflexivity.
    + apply later_refl.
  - apply Habsent. vm_compute. reflexivity.
  - apply Hnomap. reflexivity.
Defined.

(** The statement that every [Create] with a registered name stops in an
    assertion fails on the reference object system: [Foo] is registered in
    [world_Foo], and the second [Create] of [Foo], with the template at 3,
    returns the null pointer, because the template cannot take the name. *)
Lemma Create_duplicate_name_may_return :
  is_Some (registry world_Foo !! "Foo") ∧
  (∃ w', Create "Foo" (Some 1%positive) None (Some 3%positive) 0 world_Foo
         = Ret (None, w')) ∧
  ¬ (∀ (OS : ObjectSystem) name pPkg pParent pTmpl flags (w : World OS),
       is_Some (registry w !! name) →
       Create name pPkg pParent pTmpl flags w = Trap).
Proof.
  assert (is_Some (registry world_Foo !! "Foo")) as Hdup.
  { exists (Some 1%positive). vm_compute. reflexivity. }
  assert (∃ w', Create "Foo" (Some 1%positive) None (Some 3%positive) 0 world_Foo
                = Ret (None, w')) as [w' Hret].
  { eexists. vm_compute. reflexivity. }
  split_and!; [exact Hdup|by exists w'|].
  intros Hclaim.
  specialize (Hclaim sample "Foo" (Some 1%positive) None (Some 3%positive) 0%N
                world_Foo Hdup).
  rewrite Hclaim in Hret. discriminate Hret.
Qed.

(** With the object at 3 as package the steps on the template at 4 succeed,
    and the second [Create] of [Foo] stops in the assertion; with an empty
    name [Create] stops in an assertion on the world without any type. *)
Lemma Create_duplicate_name_is_refused_witness :
  is_Some (registry world_Foo !! "Foo") ∧
  Create "Foo" (Some 3%positive) None (Some 4%positive) 0 world_Foo = Trap ∧
  Create EmptyString (Some 1%positive) None (Some 2%positive) 0 world0 = Trap.
Proof.
  assert (is_Some (registry world_Foo !! "Foo")) as Hdup.
  { exists (Some 1%positive). vm_compute. reflexivity. }
  split; [exact Hdup|]. split.
  - destruct (Create_duplicate_name_is_refused
                "Foo" (Some 3%positive) None (Some 4%positive) 0%N world_Foo)
      as (_ & Hrefused).
    destruct (Hrefused Hdup) as (Htrap & _).
    eapply (Htrap 3%positive 4%positive); [reflexivity..|].
    vm_compute. reflexivity.
  - destruct (Create_duplicate_name_is_refused
                EmptyString (Some 1%positive) None (Some 2%positive) 0%N world0)
      as (Hassert & _).
    apply Hassert. left. reflexivity.
Defined.

Lemma Unregister_removes_its_entry_only_witness :
  ∃ w', Unregister (Some 3%positive) world_scenario = Ret (tt, w') ∧
    Find "Player" w' = Ret (None, w') ∧
    result (Find "Actor" w') = Ret (Some 2%positive).
Proof.
  destruct (Unregister_removes_its_entry_only 3%positive
              (mkType "Player" (Some 2%positive) (Some 4%positive) 0) world_scenario)
    as (w' & Hun & Hgone & _ & Hothers & _).
  - vm_compute. reflexivity.
  - exists (Some 3%positive). vm_compute. reflexivity.
  - exists w'. split_and!; [done..|].
    destruct (Hothers "Actor") as [_ ->]; [done|]. vm_compute. reflexivity.
Defined.

(** [Object] is the root type and is registered: [Shutdown] returns, with
    the journal of its three releases, and so does a second [Shutdown]. *)
Lemma Shutdown_order_and_second_call_witness :
  ∃ w' w1 w2 w3,
    Shutdown world_rooted = Ret (tt, w') ∧
    Shutdown_steps (world_rooted, []) =
      Ret (tt, (w', [(StepReleaseStaticType, w1);
                     (StepDeleteLookupMap, w2);
                     (StepReleaseTypePackage, w3)])) ∧
    sm_pLookupMap w2 = None ∧ sm_spTypePackage w2 = Some 1%positive ∧
    sm_pLookupMap w' = None ∧ sm_spTypePackage w' = None ∧ sm_spStaticType w' = None ∧
    ∃ w'', Shutdown w' = Ret (tt, w'') ∧ type_state w'' = type_state w'.
Proof.
  destruct (Shutdown_order_and_second_call world_rooted) as [Hreturns Hafter].
  destruct Hreturns as [w' Hsh].
  { right. exists 1%positive, (mkType "Object" None (Some 2%positive) 0).
    split_and!; [reflexivity|vm_compute; reflexivity|].
    exists (Some 1%positive). vm_compute. reflexivity. }
  destruct (Hafter w' Hsh)
    as ((w1 & w2 & w3 & Hsteps & _ & _ & _ & _ & Hmap2 & Hpkg2 & _)
        & _ & Hmap & Hpkg & Hst & w'' & Hsh2 & Hsame & _).
  exists w', w1, w2, w3. split_and!; [done..|]. by exists w''.
Defined.

(** The template at 3 had no owner; the failed [Create] has left it owned by
    the package. *)
Lemma Create_failure_keeps_template_changes_witness :
  GetOwner (objects world_Foo) 3%positive = None ∧
  ∃ w', Create "Foo" (Some 1%positive) None (Some 3%positive) 0 world_Foo = Ret (None, w') ∧
    type_state w' = type_state world_Foo ∧
    GetOwner (objects w') 3%positive = Some 1%positive.
Proof.
  split; [vm_compute; reflexivity|].
  eexists. split; [vm_compute; reflexivity|].
  match goal with
  | |- type_state ?w = _ ∧ _ =>
      destruct (Create_failure_keeps_template_changes sample_laws
                  "Foo" 1%positive None 3%positive 0%N world_Foo w)
        as (Hstate & Hobjects)
  end.
  - vm_compute. reflexivity.
  - split; [exact Hstate|]. vm_compute. reflexivity.
Defined.

End SampleFacts.


(** ** More on the proxy store *)

Module ProxyStoreMore.
Import TypeRefCountSupport ProxyStoreFacts.

(** X1.  With memory tracking, a cell cannot be released twice: when
    [Release] has returned for a pointer, a second [Release] of the same
    pointer stops in the assertion on the removal from the active set. *)
Theorem Release_twice_traps pProxy w w' :
  Release true pProxy w = Ret (tt, w') →
  Release true pProxy w' = Trap.
Proof.
  intros (c & sd & -> & Hsd & Hin & ->)%Release_returns_iff.
  unfold_store.
  destruct (decide (c ∈ activeProxySet sd ∖ {[c]})) as [Hc|Hc]; simpl; [|done].
  apply elem_of_difference in Hc as [_ Hc]. by destruct Hc; apply elem_of_singleton.
Qed.

Lemma Release_twice_traps_witness :
  ∃ w', Release true (Some 0%N) after_first_Allocate = Ret (tt, w') ∧
        Release true (Some 0%N) w' = Trap.
Proof.
  eexists. split; [vm_compute; reflexivity|].
  match goal with
  | |- Release true _ ?w = Trap =>
      apply (Release_twice_traps (Some 0%N) after_first_Allocate w)
  end.
  vm_compute. reflexivity.
Defined.

(** X2.  On every store a program can reach with memory tracking,
    [Allocate] returns a non-null cell that is not live at that time, and
    the active set grows by exactly that cell. *)
Theorem Allocate_gives_a_cell_that_is_not_live w :
  reachable true w →
  ∃ c w', Allocate true w = Ret (Some c, w') ∧
          (c ∉ active w) ∧
          active w' = {[c]} ∪ active w ∧
          reachable true w'.
Proof.
  intros Hw. destruct (Allocate_tracked_returns w Hw) as (c & w' & Hal).
  exists c, w'. split; [done|].
  destruct (Allocate_tracked_step _ _ _ Hal) as (c' & [= <-] & Hfresh & Hact & _).
  split_and!; [done..|]. by eapply reach_Allocate.
Qed.

Lemma after_first_Allocate_reachable : reachable true after_first_Allocate.
Proof.
  apply (reach_Allocate true initial (Some 0%N)); [apply reach_initial|].
  vm_compute. reflexivity.
Defined.

Lemma Allocate_gives_a_cell_that_is_not_live_witness :
  ∃ c w', Allocate true after_first_Allocate = Ret (Some c, w') ∧
          (c ∉ active after_first_Allocate) ∧
          active w' = {[c]} ∪ active after_first_Allocate ∧
          reachable true w'.
Proof.
  exact (Allocate_gives_a_cell_that_is_not_live after_first_Allocate
           after_first_Allocate_reachable).
Defined.

(** X3.  With memory tracking, [Allocate] followed by [Release] of the cell
    it returned is a round trip for the diagnostics: both calls return, the
    active set is the one before, and [GetActiveProxyCount] reports the
    size it had. *)
Theorem Allocate_then_Release_restores_live_set w :
  reachable true w →
  ∃ c w1 w2,
    Allocate true w = Ret (Some c, w1) ∧
    Release true (Some c) w1 = Ret (tt, w2) ∧
    active w2 = active w ∧
    GetActiveProxyCount w2 = Ret (N.of_nat (size (active w)), w2).
Proof.
  intros Hw. destruct (Allocate_tracked_returns w Hw) as (c & w1 & Hal).
  destruct (Allocate_tracked_step _ _ _ Hal) as (c' & [= <-] & Hfresh & Hact & _).
  destruct (Release_tracked_returns w1 c) as [w2 Hrel].
  { rewrite Hact. apply elem_of_union. left. by apply elem_of_singleton. }
  destruct (Release_tracked_step _ _ _ Hrel) as (c' & [= <-] & _ & Hact2 & [sd Hsd]).
  assert (active w2 = active w) as Hsame.
  { rewrite Hact2, Hact. apply set_eq. intros x.
    rewrite elem_of_difference, elem_of_union, elem_of_singleton.
    split; [by intros [[->|?] ?]|]. intros Hx. split; [by right|].
    by intros ->. }
  exists c, w1, w2. split; [done|]. split; [done|]. split; [done|].
  rewrite <- Hsame. unfold_store. by rewrite Hsd.
Qed.

Lemma Allocate_then_Release_restores_live_set_witness :
  ∃ c w1 w2,
    Allocate true after_first_Allocate = Ret (Some c, w1) ∧
    Release true (Some c) w1 = Ret (tt, w2) ∧
    active w2 = active after_first_Allocate ∧
    GetActiveProxyCount w2 = Ret (N.of_nat (size (active after_first_Allocate)), w2).
Proof.
  exact (Allocate_then_Release_restores_live_set after_first_Allocate
           after_first_Allocate_reachable).
Defined.

(** X5.  Once the store exists, the two diagnostic queries agree and change
    nothing: [GetFirstActiveProxy] returns true exactly when
    [GetActiveProxyCount] is not zero, the accessor then refers to a live
    cell, and it refers to nothing when the result is false. *)
Theorem GetFirstActiveProxy_agrees_with_count w :
  is_Some (sm_pStaticData w) →
  ∃ found accessor n,
    GetFirstActiveProxy w = Ret ((found, accessor), w) ∧
    GetActiveProxyCount w = Ret (n, w) ∧
    (found = true ↔ n ≠ 0%N) ∧
    (found = true → ∃ c, accessor = Some c ∧ c ∈ active w) ∧
    (found = false → accessor = None).
Proof.
  intros [sd Hsd]. unfold_store. rewrite Hsd. simpl.
  unfold size, set_size. simpl.
  destruct (elements (activeProxySet sd)) as [|c rest] eqn:Hel; simpl.
  - exists false, None, 0%N. by split_and!.
  - exists true, (Some c), (N.of_nat (S (length rest))).
    split; [done|]. split; [done|]. split; [split; [lia|done]|].
    split; [|done]. intros _. exists c. split; [done|].
    apply elem_of_elements. rewrite Hel. by left.
Qed.

Lemma GetFirstActiveProxy_agrees_with_count_witness :
  ∃ found accessor n,
    GetFirstActiveProxy after_first_Allocate = Ret ((found, accessor), after_first_Allocate) ∧
    GetActiveProxyCount after_first_Allocate = Ret (n, after_first_Allocate) ∧
    (found = true ↔ n ≠ 0%N) ∧
    (found = true → ∃ c, accessor = Some c ∧ c ∈ active after_first_Allocate) ∧
    (found = false → accessor = None).
Proof.
  apply (GetFirstActiveProxy_agrees_with_count after_first_Allocate).
  eexists. vm_compute. reflexivity.
Defined.

(** X6.  [Shutdown] forgets the cells that are still live: after it, the
    next [Allocate] starts a new active set that holds the cell it returns
    and nothing else, and [GetActiveProxyCount] is one, whatever was live
    before. *)
Theorem Shutdown_forgets_live_cells w :
  ∃ w1 c w2,
    Shutdown w = Ret (tt, w1) ∧
    Allocate true w1 = Ret (Some c, w2) ∧
    active w2 = {[c]} ∧
    GetActiveProxyCount w2 = Ret (1%N, w2).
Proof.
  destruct (ObjectPool_Allocate_total (proxyPool StaticData_ctor) (heapBreak w))
    as (c & pool & brk & Hal); [done|].
  exists (mkStore None (heapBreak w)), c. eexists. split; [done|]. split.
  { apply Allocate_returns_iff. exists c, pool, brk. simpl.
    split; [done|]. split; [|done]. intros _. apply not_elem_of_empty. }
  simpl. split.
  - unfold active. simpl. by rewrite union_empty_r_L.
  - unfold GetActiveProxyCount. unfold_monad.
    cbn [sm_pStaticData non_null activeProxySet].
    by rewrite union_empty_r_L, size_singleton.
Qed.

End ProxyStoreMore.


(** ** More on the type registry *)

Module TypeMore.
Import Type_ TypeFacts.

Section Registry.
Context {OS : ObjectSystem}.
Implicit Types (w : World OS) (p q : addr) (name n : Name).

(** *** Parent chains *)

Lemma parent_chain_transfer w w' pThis l :
  parent_chain w pThis l →
  (∀ x, x ∈ l → types w' !! x = types w !! x) →
  parent_chain w' pThis l.
Proof.
  induction 1 as [|p d l Hd _ IH]; intros Hsame; [constructor|].
  apply (chain_node w' p d l).
  - rewrite Hsame; [done|by left].
  - apply IH. intros x Hx. apply Hsame. by right.
Qed.

Lemma parent_chain_det w pThis l1 :
  parent_chain w pThis l1 → ∀ l2, parent_chain w pThis l2 → l1 = l2.
Proof.
  induction 1 as [|p d l Hd _ IH]; intros l2 H2; inversion H2; subst; [done|].
  f_equal. apply IH. by replace d with d0 by congruence.
Qed.

Lemma parent_chain_live w pThis l x :
  parent_chain w pThis l → x ∈ l → is_Some (types w !! x).
Proof.
  induction 1 as [|p d l Hd _ IH]; intros Hx; [by apply elem_of_nil in Hx|].
  apply elem_of_cons in Hx as [->|Hx]; [by exists d|by apply IH].
Qed.

Lemma parent_chain_suffix w pThis l x :
  parent_chain w pThis l → x ∈ l →
  ∃ l', parent_chain w (Some x) l' ∧ l' `suffix_of` l.
Proof.
  induction 1 as [|p d l Hd Hch IH]; intros Hx; [by apply elem_of_nil in Hx|].
  apply elem_of_cons in Hx as [->|Hx].
  - exists (p :: l). split; [by eapply chain_node|done].
  - destruct (IH Hx) as (l' & Hl' & Hsuf). exists l'.
    split; [done|by apply suffix_cons_r].
Qed.

Lemma parent_chain_NoDup w pThis l : parent_chain w pThis l → NoDup l.
Proof.
  induction 1 as [|p d l Hd Hch IH]; [constructor|].
  apply NoDup_cons. split; [|done]. intros Hp.
  destruct (parent_chain_suffix _ _ _ _ Hch Hp) as (l' & Hl' & Hsuf).
  assert (l' = p :: l) as ->.
  { eapply parent_chain_det; [done|]. by eapply chain_node. }
  apply suffix_length in Hsuf. simpl in Hsuf. lia.
Qed.

Lemma parent_chain_length w pThis l :
  parent_chain w pThis l → length l ≤ size (types w).
Proof.
  intros Hch. rewrite <- (size_dom (types w)).
  change (size (dom (types w))) with (length (elements (dom (types w)))).
  apply submseteq_length, NoDup_submseteq; [by eapply parent_chain_NoDup|].
  intros x Hx. apply elem_of_elements, elem_of_dom. by eapply parent_chain_live.
Qed.

Lemma parent_chain_head w p l : parent_chain w (Some p) l → ∃ l', l = p :: l'.
Proof. inversion 1; eauto. Qed.

(** The answer of [IsSubtypeOf] in a hierarchy that is well formed. *)
Lemma IsSubtypeOf_on_chain w T A l fuel :
  parent_chain w (Some T) l → size (types w) < fuel →
  IsSubtypeOf fuel T (Some A) w = Ret (bool_decide (A ∈ l), w).
Proof.
  intros Hch Hfuel. unfold IsSubtypeOf. unfold_monad. simpl.
  apply IsSubtypeOf_loop_chain; [done|].
  apply parent_chain_length in Hch. lia.
Qed.

(** *** Subtype queries on a well-formed hierarchy *)

(** X7.  In a hierarchy where every live descriptor has a finite parent
    chain, [IsSubtypeOf] called on a live descriptor with a non-null
    argument returns, and changes nothing, as soon as the fuel exceeds the
    number of live descriptors: the walk visits no descriptor twice. *)
Theorem IsSubtypeOf_returns_within_the_number_of_types w T A fuel :
  hierarchy_wf w →
  is_Some (types w !! T) →
  size (types w) < fuel →
  ∃ b, IsSubtypeOf fuel T (Some A) w = Ret (b, w).
Proof.
  intros Hwf [d Hd] Hfuel. destruct (Hwf T d Hd) as [l Hl].
  eexists. by apply IsSubtypeOf_on_chain.
Qed.

(** X8.  [IsSubtypeOf] is transitive on a well-formed hierarchy: when [A]
    is a subtype of [B] and [B] a subtype of [C], [A] is a subtype of
    [C]. *)
Theorem IsSubtypeOf_is_transitive w A B C fuel :
  hierarchy_wf w →
  is_Some (types w !! A) →
  size (types w) < fuel →
  IsSubtypeOf fuel A (Some B) w = Ret (true, w) →
  IsSubtypeOf fuel B (Some C) w = Ret (true, w) →
  IsSubtypeOf fuel A (Some C) w = Ret (true, w).
Proof.
  intros Hwf [d Hd] Hfuel HAB HBC. destruct (Hwf A d Hd) as [lA HlA].
  rewrite (IsSubtypeOf_on_chain w A B lA) in HAB by done.
  injection HAB as HAB. apply bool_decide_eq_true_1 in HAB.
  destruct (parent_chain_suffix _ _ _ _ HlA HAB) as (lB & HlB & [k ->]).
  rewrite (IsSubtypeOf_on_chain w B C lB) in HBC by done.
  injection HBC as HBC. apply bool_decide_eq_true_1 in HBC.
  rewrite (IsSubtypeOf_on_chain w A C (k ++ lB)) by done.
  do 2 f_equal. apply bool_decide_eq_true_2, elem_of_app. by right.
Qed.

(** X9.  [IsSubtypeOf] is antisymmetric on a well-formed hierarchy: two
    descriptors that are subtypes of each other are the same descriptor. *)
Theorem IsSubtypeOf_is_antisymmetric w A B fuel :
  hierarchy_wf w →
  is_Some (types w !! A) →
  size (types w) < fuel →
  IsSubtypeOf fuel A (Some B) w = Ret (true, w) →
  IsSubtypeOf fuel B (Some A) w = Ret (true, w) →
  A = B.
Proof.
  intros Hwf [d Hd] Hfuel HAB HBA. destruct (Hwf A d Hd) as [lA HlA].
  rewrite (IsSubtypeOf_on_chain w A B lA) in HAB by done.
  injection HAB as HAB. apply bool_decide_eq_true_1 in HAB.
  destruct (parent_chain_suffix _ _ _ _ HlA HAB) as (lB & HlB & HsufB).
  rewrite (IsSubtypeOf_on_chain w B A lB) in HBA by done.
  injection HBA as HBA. apply bool_decide_eq_true_1 in HBA.
  destruct (parent_chain_suffix _ _ _ _ HlB HBA) as (lA' & HlA' & HsufA).
  assert (lA' = lA) as -> by (by eapply parent_chain_det).
  assert (lB = lA) as ->.
  { apply suffix_length_eq; [done|].
    apply suffix_length in HsufA, HsufB. lia. }
  destruct (parent_chain_head _ _ _ HlA) as [l1 ->].
  destruct (parent_chain_head _ _ _ HlB) as [l2 [= -> _]]. done.
Qed.

(** *** The hierarchy stays well formed *)

Lemma hierarchy_wf_types w w' :
  types w' = types w → hierarchy_wf w → hierarchy_wf w'.
Proof.
  intros Hty Hwf p d Hd. rewrite Hty in Hd. destruct (Hwf p d Hd) as [l Hl].
  exists l. apply (parent_chain_transfer w); [done|]. intros x _. by rewrite Hty.
Qed.

Lemma hierarchy_wf_Create w name pPkg pParent pTmpl flags r w' :
  hierarchy_wf w →
  (∀ q, pParent = Some q → is_Some (types w !! q)) →
  Create name pPkg pParent pTmpl flags w = Ret (r, w') →
  hierarchy_wf w'.
Proof.
  intros Hwf Hparent Hc.
  destruct (Create_returns_inv _ _ _ _ _ _ _ _ Hc) as (Hname & pkg & tmpl & -> & ->).
  rewrite Create_cases in Hc by done.
  destruct (template_steps tmpl pkg name (objects w)) as [[s|] o].
  { injection Hc as <- <-. by apply (hierarchy_wf_types w). }
  destruct (registry w !! name); [done|]. injection Hc as <- <-.
  pose proof (fresh_type_not_live w) as Hfresh.
  set (p0 := fresh (dom (types w))) in *.
  assert (∀ pThis l, parent_chain w pThis l →
            parent_chain (created_world name pParent tmpl flags o w) pThis l) as Hold.
  { intros pThis l Hl. apply (parent_chain_transfer w); [done|].
    intros x Hx. simpl. fold p0. rewrite lookup_insert_ne; [done|]. intros <-.
    destruct (parent_chain_live _ _ _ _ Hl Hx) as [? ?]. congruence. }
  intros p d Hd. simpl in Hd. fold p0 in Hd.
  destruct (decide (p = p0)) as [->|Hne].
  - rewrite lookup_insert_eq in Hd. injection Hd as <-.
    destruct pParent as [q|].
    + destruct (Hparent q eq_refl) as [dq Hq]. destruct (Hwf q dq Hq) as [l Hl].
      exists (p0 :: l). eapply chain_node.
      * simpl. fold p0. by rewrite lookup_insert_eq.
      * simpl. by apply Hold.
    + exists [p0]. eapply chain_node.
      * simpl. fold p0. by rewrite lookup_insert_eq.
      * constructor.
  - rewrite lookup_insert_ne in Hd by done.
    destruct (Hwf p d Hd) as [l Hl]. exists l. by apply Hold.
Qed.

Lemma parent_chain_unregistered w p d m pThis l :
  types w !! p = Some d →
  parent_chain w pThis l →
  ∃ l', parent_chain (unregistered_world p d m w) pThis l'.
Proof.
  intros Hp. induction 1 as [|x dx l Hx _ [l' IH]]; [exists []; constructor|].
  destruct (decide (x = p)) as [->|Hne].
  - exists [p]. eapply chain_node.
    + simpl. by rewrite lookup_insert_eq.
    + constructor.
  - exists (x :: l'). eapply chain_node; [|done].
    simpl. by rewrite lookup_insert_ne.
Qed.

Lemma hierarchy_wf_Unregister w pType w' :
  hierarchy_wf w →
  Unregister pType w = Ret (tt, w') →
  hierarchy_wf w'.
Proof.
  intros Hwf (p & d & m & -> & Hd & _ & _ & ->)%Unregister_returns_inv.
  intros q dq Hq. simpl in Hq.
  destruct (decide (q = p)) as [->|Hne].
  - exists [p]. eapply chain_node; [done|].
    rewrite lookup_insert_eq in Hq. injection Hq as <-. constructor.
  - rewrite lookup_insert_ne in Hq by done.
    destruct (Hwf q dq Hq) as [l Hl]. by eapply parent_chain_unregistered.
Qed.

(** X10.  [Create] and [Unregister] keep the hierarchy well formed: when
    every live descriptor has a finite parent chain, it still has one after
    a [Create] whose parent argument is null or a live descriptor, and after
    an [Unregister]; no call can close a cycle. *)
Theorem Create_and_Unregister_keep_hierarchy w :
  hierarchy_wf w →
  (∀ name pPkg pParent pTmpl flags r w',
     (∀ q, pParent = Some q → is_Some (types w !! q)) →
     Create name pPkg pParent pTmpl flags w = Ret (r, w') →
     hierarchy_wf w') ∧
  (∀ pType w', Unregister pType w = Ret (tt, w') → hierarchy_wf w').
Proof.
  intros Hwf. split.
  - intros name pPkg pParent pTmpl flags r w' Hparent Hc.
    by eapply hierarchy_wf_Create.
  - intros pType w' Hun. by eapply hierarchy_wf_Unregister.
Qed.

(** X11.  [Unregister] cuts the descriptor off its ancestors: afterwards
    the descriptor is a subtype of itself only. *)
Theorem IsSubtypeOf_after_Unregister p w w' A fuel :
  Unregister (Some p) w = Ret (tt, w') →
  2 ≤ fuel →
  IsSubtypeOf fuel p (Some A) w' = Ret (bool_decide (A = p), w').
Proof.
  intros (p' & d & m & [= <-] & Hd & _ & _ & ->)%Unregister_returns_inv Hfuel.
  unfold IsSubtypeOf. unfold_monad. simpl.
  rewrite (IsSubtypeOf_loop_chain _ A (Some p) [p]).
  - do 2 f_equal. apply bool_decide_ext. rewrite list_elem_of_singleton. done.
  - eapply chain_node; [simpl; by rewrite lookup_insert_eq|]. constructor.
  - simpl. lia.
Qed.

(** *** The registry stays well formed *)

Lemma registry_wf_Create w name pPkg pParent pTmpl flags r w' :
  registry_wf w →
  Create name pPkg pParent pTmpl flags w = Ret (r, w') →
  registry_wf w'.
Proof.
  intros Hwf Hc.
  destruct (Create_returns_inv _ _ _ _ _ _ _ _ Hc) as (Hname & pkg & tmpl & -> & ->).
  rewrite Create_cases in Hc by done.
  destruct (template_steps tmpl pkg name (objects w)) as [[s|] o].
  { by injection Hc as <- <-. }
  destruct (registry w !! name) eqn:Hfree; [done|]. injection Hc as <- <-.
  pose proof (fresh_type_not_live w) as Hfresh.
  intros n v Hn. unfold registry, created_world in Hn. simpl in Hn. simpl.
  destruct (decide (n = name)) as [->|Hne].
  - rewrite lookup_insert_eq in Hn. injection Hn as <-.
    eexists _, _. split; [done|]. by rewrite lookup_insert_eq.
  - rewrite lookup_insert_ne in Hn by done.
    destruct (Hwf n v Hn) as (p & d & -> & Hd & Hnm).
    exists p, d. split; [done|]. split; [|done].
    rewrite lookup_insert_ne; [done|]. intros <-. congruence.
Qed.

Lemma registry_wf_Unregister w pType w' :
  registry_wf w →
  Unregister pType w = Ret (tt, w') →
  registry_wf w'.
Proof.
  intros Hwf (p & d & m & -> & Hd & Hm & _ & ->)%Unregister_returns_inv.
  intros n v Hn. unfold registry, unregistered_world in Hn. simpl in Hn. simpl.
  destruct (decide (n = m_name d)) as [->|Hne].
  { by rewrite lookup_delete_eq in Hn. }
  rewrite lookup_delete_ne in Hn by done.
  destruct (Hwf n v) as (p' & d' & -> & Hd' & Hnm).
  { unfold registry. by rewrite Hm. }
  exists p', d'. split; [done|]. split; [|done].
  rewrite lookup_insert_ne; [done|]. intros <-. congruence.
Qed.

Lemma Shutdown_empties_registry w w' :
  Shutdown w = Ret (tt, w') → sm_pLookupMap w' = None ∧ sm_spTypePackage w' = None.
Proof.
  rewrite Shutdown_cases.
  destruct (GameObject_ReleaseStaticType _) as [[[] w1]| | |]; try done.
  by intros [= <-].
Qed.

Lemma SetTypePackage_cases pPackage w :
  SetTypePackage pPackage w =
  match pPackage, sm_spTypePackage w with
  | Some p, None => Ret (tt, set_TypePackage (Some p) w)
  | _, _ => Trap
  end.
Proof.
  unfold SetTypePackage. unfold_monad. simpl.
  destruct pPackage as [p|]; simpl; [|done].
  by destruct (sm_spTypePackage w).
Qed.

(** X12.  The calls that change the registry keep it well formed: when
    every entry refers to a live descriptor that carries the name the entry
    is filed under, this still holds after [Create], [Unregister],
    [SetTypePackage] and [Shutdown] have returned. *)
Theorem registry_stays_well_formed w :
  registry_wf w →
  (∀ name pPkg pParent pTmpl flags r w',
     Create name pPkg pParent pTmpl flags w = Ret (r, w') → registry_wf w') ∧
  (∀ pType w', Unregister pType w = Ret (tt, w') → registry_wf w') ∧
  (∀ pPackage w', SetTypePackage pPackage w = Ret (tt, w') → registry_wf w') ∧
  (∀ w', Shutdown w = Ret (tt, w') → registry_wf w').
Proof.
  intros Hwf. split_and!.
  - intros name pPkg pParent pTmpl flags r w' Hc. by eapply registry_wf_Create.
  - intros pType w' Hun. by eapply registry_wf_Unregister.
  - intros pPackage w' Hset. rewrite SetTypePackage_cases in Hset.
    destruct pPackage as [p|]; [|done].
    destruct (sm_spTypePackage w); [done|]. by injection Hset as <-.
  - intros w' [Hmap _]%Shutdown_empties_registry n v Hn.
    unfold registry in Hn. rewrite Hmap in Hn. by rewrite lookup_empty in Hn.
Qed.

(** X13.  On a well-formed registry [Find] never stops in its assertion
    and changes nothing; it returns null exactly for the names without an
    entry; a descriptor it returns is live and carries the name asked for,
    so that no descriptor is found under two names. *)
Theorem Find_on_well_formed_registry w :
  registry_wf w →
  (∀ n, ∃ r, Find n w = Ret (r, w) ∧
             (r = None ↔ registry w !! n = None) ∧
             (∀ p, r = Some p → ∃ d, types w !! p = Some d ∧ m_name d = n)) ∧
  (∀ n1 n2 p,
     Find n1 w = Ret (Some p, w) → Find n2 w = Ret (Some p, w) → n1 = n2).
Proof.
  intros Hwf.
  assert (∀ n p, Find n w = Ret (Some p, w) →
                 ∃ d, types w !! p = Some d ∧ m_name d = n) as Hfound.
  { intros n p. rewrite Find_registry.
    destruct (registry w !! n) as [[p'|]|] eqn:Hn; try done.
    intros [= <-]. destruct (Hwf n _ Hn) as (p'' & d & [= <-] & Hd & Hnm). eauto. }
  split.
  - intros n. rewrite Find_registry.
    destruct (registry w !! n) as [v|] eqn:Hn.
    + destruct (Hwf n v Hn) as (p & d & -> & Hd & Hnm).
      exists (Some p). split; [done|]. split; [done|].
      intros p' [= <-]. eauto.
    + exists None. split; [done|]. split; [done|]. by intros p [=].
  - intros n1 n2 p H1 H2.
    destruct (Hfound n1 p H1) as (d1 & Hd1 & <-).
    destruct (Hfound n2 p H2) as (d2 & Hd2 & <-). congruence.
Qed.

(** *** Misuse and round trips *)

(** X14.  [Unregister] on a live descriptor whose name has no entry in the
    registry stops in an assertion; in particular a descriptor cannot be
    unregistered twice in a row. *)
Theorem Unregister_needs_a_registered_name p d w :
  types w !! p = Some d →
  (registry w !! m_name d = None → Unregister (Some p) w = Trap) ∧
  (∀ w', Unregister (Some p) w = Ret (tt, w') → Unregister (Some p) w' = Trap).
Proof.
  intros Hd. split.
  - intros Hfree. rewrite (Unregister_cases p d w Hd).
    unfold registry in Hfree. destruct (sm_pLookupMap w) as [m|]; [|done].
    by rewrite Hfree.
  - intros w' (p' & d' & m & [= <-] & Hd' & Hm & _ & ->)%Unregister_returns_inv.
    assert (d' = d) as -> by congruence.
    rewrite (Unregister_cases p (mkType (m_name d) None None (m_typeFlags d))).
    + simpl. by rewrite lookup_delete_eq.
    + simpl. by rewrite lookup_insert_eq.
Qed.

(** X15.  [Unregister] finds the entry by the name of the descriptor, not
    by the descriptor: called on a live descriptor whose name is registered
    for another descriptor, it returns, the name has no entry afterwards,
    and the references released are those of the descriptor passed; the
    descriptor that was registered is left as it was. *)
Theorem Unregister_goes_by_name p d p2 w :
  types w !! p = Some d →
  registry w !! m_name d = Some (Some p2) →
  p2 ≠ p →
  ∃ w', Unregister (Some p) w = Ret (tt, w') ∧
    Find (m_name d) w' = Ret (None, w') ∧
    types w' !! p = Some (mkType (m_name d) None None (m_typeFlags d)) ∧
    types w' !! p2 = types w !! p2.
Proof.
  intros Hd Hreg Hne. rewrite (Unregister_cases p d w Hd).
  unfold registry in Hreg. destruct (sm_pLookupMap w) as [m|] eqn:Hm;
    [|by rewrite lookup_empty in Hreg].
  rewrite Hreg. eexists. split; [done|]. split_and!.
  - rewrite Find_registry. unfold registry. simpl. by rewrite lookup_delete_eq.
  - simpl. by rewrite lookup_insert_eq.
  - simpl. by rewrite lookup_insert_ne.
Qed.

(** X16.  [Unregister] undoes the registration of a successful [Create]:
    when it has returned for the descriptor [Create] returned, every name
    has the entry again it had before the [Create], [Find] answers every
    name as it did then, the descriptors that were live then are as they
    were, and the object system keeps what [Create] did to the template. *)
Theorem Unregister_undoes_Create name pPkg pParent pTmpl flags w p w1 w2 :
  Create name pPkg pParent pTmpl flags w = Ret (Some p, w1) →
  Unregister (Some p) w1 = Ret (tt, w2) →
  registry w2 = registry w ∧
  (∀ n, result (Find n w2) = result (Find n w)) ∧
  (∀ q d, types w !! q = Some d → types w2 !! q = Some d) ∧
  objects w2 = objects w1.
Proof.
  intros Hc Hun.
  destruct (Create_returns_inv _ _ _ _ _ _ _ _ Hc) as (Hname & pkg & tmpl & -> & ->).
  rewrite Create_cases in Hc by done.
  destruct (template_steps tmpl pkg name (objects w)) as [[s|] o]; [done|].
  destruct (registry w !! name) eqn:Hfree; [done|]. injection Hc as <- <-.
  pose proof (fresh_type_not_live w) as Hfresh.
  rewrite (Unregister_cases _ (mkType name pParent (Some tmpl) flags)) in Hun;
    [|simpl; by rewrite lookup_insert_eq].
  simpl in Hun. rewrite lookup_insert_eq in Hun. injection Hun as <-.
  assert (registry (unregistered_world (fresh (dom (types w)))
                      (mkType name pParent (Some tmpl) flags)
                      (<[name:=Some (fresh (dom (types w)))]> (registry w))
                      (created_world name pParent tmpl flags o w)) = registry w)
    as Hreg.
  { unfold registry at 1. simpl. rewrite delete_insert_eq. by apply delete_id. }
  split_and!; try done.
  - intros n. rewrite !Find_registry, Hreg.
    by destruct (registry w !! n) as [[?|]|].
  - intros q d Hq. simpl. rewrite insert_insert_eq.
    rewrite lookup_insert_ne; [done|]. intros <-. congruence.
Qed.

(** X17.  A successful [Create] adds and changes nothing else: the
    descriptor it returns is at an address that was not live, the
    descriptors that were live are as they were, the registry has the new
    entry and the entries it had (the lookup map exists from then on), and
    the package and root type statics are untouched. *)
Theorem Create_adds_one_descriptor name pPkg pParent pTmpl flags w p w' :
  Create name pPkg pParent pTmpl flags w = Ret (Some p, w') →
  types w !! p = None ∧
  registry w !! name = None ∧
  (∀ q, q ≠ p → types w' !! q = types w !! q) ∧
  registry w' = <[name := Some p]> (registry w) ∧
  is_Some (sm_pLookupMap w') ∧
  sm_spTypePackage w' = sm_spTypePackage w ∧
  sm_spStaticType w' = sm_spStaticType w.
Proof.
  intros Hc.
  destruct (Create_returns_inv _ _ _ _ _ _ _ _ Hc) as (Hname & pkg & tmpl & -> & ->).
  rewrite Create_cases in Hc by done.
  destruct (template_steps tmpl pkg name (objects w)) as [[s|] o]; [done|].
  destruct (registry w !! name) eqn:Hfree; [done|]. injection Hc as <- <-.
  split_and!; try done.
  - apply fresh_type_not_live.
  - intros q Hq. simpl. by rewrite lookup_insert_ne.
Qed.

(** X18.  The type package can be set once: [SetTypePackage] returns only
    for a non-null package when none is set, it then sets it and nothing
    else, and every further call stops in an assertion, until a [Shutdown]
    has released the package. *)
Theorem SetTypePackage_sets_once pPackage w w' :
  SetTypePackage pPackage w = Ret (tt, w') →
  (∃ p, pPackage = Some p ∧ sm_spTypePackage w = None ∧
        w' = set_TypePackage (Some p) w) ∧
  (∀ pOther, SetTypePackage pOther w' = Trap) ∧
  (∀ w'' q, Shutdown w' = Ret (tt, w'') →
            ∃ w3, SetTypePackage (Some q) w'' = Ret (tt, w3) ∧
                  sm_spTypePackage w3 = Some q).
Proof.
  rewrite SetTypePackage_cases. destruct pPackage as [p|]; [|done].
  destruct (sm_spTypePackage w) eqn:Hpkg; [done|]. intros [= <-].
  split_and!.
  - by exists p.
  - intros pOther. rewrite SetTypePackage_cases. by destruct pOther.
  - intros w'' q [_ Hnone]%Shutdown_empties_registry.
    rewrite SetTypePackage_cases, Hnone. by eexists.
Qed.

(** *** Iteration *)

(** X19.  [GetTypeBegin] and [GetTypeEnd] return and change nothing.  A
    loop from the one to the other visits the entries of the registry, every
    name once; the two iterators are equal, and the loop visits nothing,
    exactly when the registry has no entry, which includes the case that
    the lookup map does not exist. *)
Theorem GetTypeBegin_to_GetTypeEnd_spans_the_registry w :
  ∃ first last,
    GetTypeBegin w = Ret (first, w) ∧
    GetTypeEnd w = Ret (last, w) ∧
    (first = last ↔ registry w = ∅) ∧
    (∀ n v, (n, v) ∈ visited w first last ↔ registry w !! n = Some v) ∧
    NoDup (visited w first last).*1 ∧
    (sm_pLookupMap w = None → first = ZeroIterator ∧ last = ZeroIterator).
Proof.
  unfold GetTypeBegin, GetTypeEnd, visited, registry. unfold_monad. simpl.
  destruct (sm_pLookupMap w) as [m|]; simpl.
  - eexists _, _. split; [done|]. split; [done|].
    lazy iota beta.
    replace (take (length (map_to_list m) - 0) (drop 0 (map_to_list m)))
      with (map_to_list m) by (by rewrite Nat.sub_0_r, firstn_all).
    split_and!; [|by intros n v; rewrite elem_of_map_to_list
                 |apply NoDup_fst_map_to_list|done].
    rewrite <- map_to_list_empty_iff. split.
    + intros [= Hlen]. symmetry in Hlen. by apply length_zero_iff_nil in Hlen.
    + by intros ->.
  - exists ZeroIterator, ZeroIterator. split_and!; try done.
    + intros n v. rewrite lookup_empty. split; [by intros ?%elem_of_nil|done].
    + constructor.
Qed.

End Registry.

End TypeMore.


(** ** The further results at work on the reference object system *)

Module SampleMore.
Import Type_ SampleObjects TypeFacts TypeMore.

Lemma world0_hierarchy_wf : hierarchy_wf world0.
Proof. intros p d Hd. simpl in Hd. by rewrite lookup_empty in Hd. Qed.

Lemma world0_registry_wf : registry_wf world0.
Proof.
  intros n v Hn. unfold registry in Hn. simpl in Hn. by rewrite lookup_empty in Hn.
Qed.

Lemma after_Create_runs name pkg pParent tmpl w :
  (∃ r w', Create name (Some pkg) pParent (Some tmpl) 0 w = Ret (r, w')) →
  ∃ r, Create name (Some pkg) pParent (Some tmpl) 0 w
       = Ret (r, after_Create name pkg pParent tmpl w).
Proof. intros (r & w' & Hc). exists r. unfold after_Create. by rewrite Hc. Qed.

Lemma world_scenario_hierarchy_wf : hierarchy_wf world_scenario.
Proof.
  unfold world_scenario.
  destruct (after_Create_runs "Object" 1%positive None 2%positive world0) as [r1 H1];
    [eexists _, _; vm_compute; reflexivity|].
  assert (hierarchy_wf (after_Create "Object" 1%positive None 2%positive world0))
    as Hwf1.
  { refine (hierarchy_wf_Create _ _ _ _ _ _ _ _ world0_hierarchy_wf _ H1).
    by intros q [=]. }
  destruct (after_Create_runs "Actor" 1%positive (Some 1%positive) 3%positive
              (after_Create "Object" 1%positive None 2%positive world0)) as [r2 H2];
    [eexists _, _; vm_compute; reflexivity|].
  assert (hierarchy_wf
            (after_Create "Actor" 1%positive (Some 1%positive) 3%positive
               (after_Create "Object" 1%positive None 2%positive world0))) as Hwf2.
  { refine (hierarchy_wf_Create _ _ _ _ _ _ _ _ Hwf1 _ H2).
    intros q [= <-]. eexists. vm_compute. reflexivity. }
  destruct (after_Create_runs "Player" 1%positive (Some 2%positive) 4%positive
              (after_Create "Actor" 1%positive (Some 1%positive) 3%positive
                 (after_Create "Object" 1%positive None 2%positive world0)))
    as [r3 H3]; [eexists _, _; vm_compute; reflexivity|].
  refine (hierarchy_wf_Create _ _ _ _ _ _ _ _ Hwf2 _ H3).
  intros q [= <-]. eexists. vm_compute. reflexivity.
Qed.

Lemma world_scenario_registry_wf : registry_wf world_scenario.
Proof.
  unfold world_scenario.
  destruct (after_Create_runs "Object" 1%positive None 2%positive world0) as [r1 H1];
    [eexists _, _; vm_compute; reflexivity|].
  pose proof (registry_wf_Create _ _ _ _ _ _ _ _ world0_registry_wf H1) as Hwf1.
  destruct (after_Create_runs "Actor" 1%positive (Some 1%positive) 3%positive
              (after_Create "Object" 1%positive None 2%positive world0)) as [r2 H2];
    [eexists _, _; vm_compute; reflexivity|].
  pose proof (registry_wf_Create _ _ _ _ _ _ _ _ Hwf1 H2) as Hwf2.
  destruct (after_Create_runs "Player" 1%positive (Some 2%positive) 4%positive
              (after_Create "Actor" 1%positive (Some 1%positive) 3%positive
                 (after_Create "Object" 1%positive None 2%positive world0)))
    as [r3 H3]; [eexists _, _; vm_compute; reflexivity|].
  exact (registry_wf_Create _ _ _ _ _ _ _ _ Hwf2 H3).
Qed.

Lemma world_scenario_three_types : size (types world_scenario) < 4.
Proof. vm_compute. lia. Qed.

Lemma IsSubtypeOf_returns_within_the_number_of_types_witness :
  ∃ b, IsSubtypeOf 4 3%positive (Some 1%positive) world_scenario = Ret (b, world_scenario).
Proof.
  apply IsSubtypeOf_returns_within_the_number_of_types.
  - exact world_scenario_hierarchy_wf.
  - eexists. vm_compute. reflexivity.
  - exact world_scenario_three_types.
Defined.

(** [Player] is an [Actor] and [Actor] an [Object], so [Player] is an
    [Object]. *)
Lemma IsSubtypeOf_is_transitive_witness :
  IsSubtypeOf 4 3%positive (Some 1%positive) world_scenario = Ret (true, world_scenario).
Proof.
  apply (IsSubtypeOf_is_transitive world_scenario 3%positive 2%positive 1%positive 4).
  - exact world_scenario_hierarchy_wf.
  - eexists. vm_compute. reflexivity.
  - exact world_scenario_three_types.
  - vm_compute. reflexivity.
  - vm_compute. reflexivity.
Defined.

Lemma IsSubtypeOf_is_antisymmetric_witness :
  IsSubtypeOf 4 2%positive (Some 2%positive) world_scenario = Ret (true, world_scenario) ∧
  2%positive = 2%positive.
Proof.
  split; [vm_compute; reflexivity|].
  apply (IsSubtypeOf_is_antisymmetric world_scenario 2%positive 2%positive 4).
  - exact world_scenario_hierarchy_wf.
  - eexists. vm_compute. reflexivity.
  - exact world_scenario_three_types.
  - vm_compute. reflexivity.
  - vm_compute. reflexivity.
Defined.

Lemma Create_and_Unregister_keep_hierarchy_witness :
  ∃ w', Unregister (Some 2%positive) world_scenario = Ret (tt, w') ∧ hierarchy_wf w'.
Proof.
  eexists. split; [vm_compute; reflexivity|].
  destruct (Create_and_Unregister_keep_hierarchy world_scenario
              world_scenario_hierarchy_wf) as [_ Hun].
  apply (Hun (Some 2%positive)). vm_compute. reflexivity.
Defined.

(** Once [Player] is unregistered it is no [Object] any more. *)
Lemma IsSubtypeOf_after_Unregister_witness :
  ∃ w', Unregister (Some 3%positive) world_scenario = Ret (tt, w') ∧
        IsSubtypeOf 2 3%positive (Some 1%positive) w' = Ret (false, w').
Proof.
  eexists. split; [vm_compute; reflexivity|].
  match goal with
  | |- IsSubtypeOf 2 _ _ ?w = _ =>
      apply (IsSubtypeOf_after_Unregister 3%positive world_scenario w 1%positive 2)
  end.
  - vm_compute. reflexivity.
  - lia.
Defined.

Lemma registry_stays_well_formed_witness :
  ∃ w', Unregister (Some 2%positive) world_scenario = Ret (tt, w') ∧ registry_wf w'.
Proof.
  eexists. split; [vm_compute; reflexivity|].
  destruct (registry_stays_well_formed world_scenario world_scenario_registry_wf)
    as (_ & Hun & _).
  apply (Hun (Some 2%positive)). vm_compute. reflexivity.
Defined.

Lemma Find_on_well_formed_registry_witness :
  ∃ r, Find "Actor" world_scenario = Ret (r, world_scenario) ∧
       (r = None ↔ registry world_scenario !! "Actor" = None) ∧
       (∀ p, r = Some p → ∃ d, types world_scenario !! p = Some d ∧ m_name d = "Actor").
Proof.
  destruct (Find_on_well_formed_registry world_scenario world_scenario_registry_wf)
    as [Hfind _].
  exact (Hfind "Actor").
Defined.

Lemma Unregister_needs_a_registered_name_witness :
  ∃ w', Unregister (Some 3%positive) world_scenario = Ret (tt, w') ∧
        Unregister (Some 3%positive) w' = Trap.
Proof.
  eexists. split; [vm_compute; reflexivity|].
  destruct (Unregister_needs_a_registered_name 3%positive
              (mkType "Player" (Some 2%positive) (Some 4%positive) 0) world_scenario)
    as [_ Htwice]; [vm_compute; reflexivity|].
  apply Htwice. vm_compute. reflexivity.
Defined.

Lemma Unregister_undoes_Create_witness :
  ∃ w2, Unregister (Some 1%positive) world_Foo = Ret (tt, w2) ∧
    registry w2 = registry world0 ∧
    (∀ n, result (Find n w2) = result (Find n world0)) ∧
    (∀ q d, types world0 !! q = Some d → types w2 !! q = Some d) ∧
    objects w2 = objects world_Foo.
Proof.
  eexists. split; [vm_compute; reflexivity|].
  match goal with
  | |- registry ?w2 = _ ∧ _ =>
      apply (Unregister_undoes_Create "Foo" (Some 1%positive) None (Some 2%positive)
               0%N world0 1%positive world_Foo w2)
  end.
  - vm_compute. reflexivity.
  - vm_compute. reflexivity.
Defined.

Lemma Create_adds_one_descriptor_witness :
  types world0 !! 1%positive = None ∧
  registry world0 !! "Foo" = None ∧
  (∀ q, q ≠ 1%positive → types world_Foo !! q = types world0 !! q) ∧
  registry world_Foo = <["Foo" := Some 1%positive]> (registry world0) ∧
  is_Some (sm_pLookupMap world_Foo) ∧
  sm_spTypePackage world_Foo = sm_spTypePackage world0 ∧
  sm_spStaticType world_Foo = sm_spStaticType world0.
Proof.
  apply (Create_adds_one_descriptor "Foo" (Some 1%positive) None (Some 2%positive) 0%N
           world0 1%positive world_Foo).
  vm_compute. reflexivity.
Defined.

Lemma SetTypePackage_sets_once_witness :
  SetTypePackage (Some 1%positive) world_scenario
    = Ret (tt, set_TypePackage (Some 1%positive) world_scenario) ∧
  SetTypePackage (Some 2%positive) (set_TypePackage (Some 1%positive) world_scenario)
    = Trap.
Proof.
  split; [reflexivity|].
  destruct (SetTypePackage_sets_once (Some 1%positive) world_scenario
              (set_TypePackage (Some 1%positive) world_scenario))
    as (_ & Honce & _); [reflexivity|].
  exact (Honce (Some 2%positive)).
Defined.

(** [Foo] was registered twice with an [Unregister] between: unregistering
    the first descriptor again removes the entry of the second. *)
Lemma Unregister_goes_by_name_witness :
  registry world_Foo_again !! "Foo" = Some (Some 2%positive) ∧
  ∃ w', Unregister (Some 1%positive) world_Foo_again = Ret (tt, w') ∧
    Find "Foo" w' = Ret (None, w') ∧
    types w' !! 1%positive = Some (mkType "Foo" None None 0) ∧
    types w' !! 2%positive = types world_Foo_again !! 2%positive.
Proof.
  split; [vm_compute; reflexivity|].
  apply (Unregister_goes_by_name 1%positive (mkType "Foo" None None 0) 2%positive
           world_Foo_again).
  - vm_compute. reflexivity.
  - vm_compute. reflexivity.
  - discriminate.
Defined.

End SampleMore.
